(** * Daily-Tracker: the task classifier and the sheet client of [bot.py]

    A shallow embedding of [TaskParser.parse_message],
    [GoogleSheetsManager.setup_headers], [GoogleSheetsManager.add_task] and
    [handle_message], with the properties of the specification stated and
    proved (or refuted) over it.

    Python strings are sequences of Unicode code points; the regular
    expressions of [parse_message] are kept as data and run by a
    backtracking matcher that follows the [re] module (leftmost match,
    alternatives in order, greedy repetition, [IGNORECASE]). *)

From Stdlib Require Import List ZArith Bool Lia String Ascii.
Import ListNotations.

Set Implicit Arguments.
Local Open Scope Z_scope.

(* ================================================================== *)
(** * Python [str]                                                     *)
(* ================================================================== *)

Module Py.

(** A [str] is a sequence of code points; [len] counts code points. *)
Definition str := list Z.

Definition len (s : str) : nat := List.length s.

(** [a == b] on strings. *)
Definition str_eqb (a b : str) : bool :=
  if list_eq_dec Z.eq_dec a b then true else false.

(** ** Literals

    Source literals are written as Rocq strings, whose characters are the
    bytes of the UTF-8 encoding of the file; [u] decodes them to code
    points. [pending] continuation bytes are still expected for the code
    point accumulated in [acc]. *)
Fixpoint utf8_go (pending : nat) (acc : Z) (bs : list Z) : str :=
  match bs with
  | [] => []
  | b :: bs' =>
      match pending with
      | O =>
          if b <? 0x80 then b :: utf8_go O 0 bs'
          else if b <? 0xE0 then utf8_go 1 (Z.land b 0x1F) bs'
          else if b <? 0xF0 then utf8_go 2 (Z.land b 0x0F) bs'
          else utf8_go 3 (Z.land b 0x07) bs'
      | S O => (acc * 64 + Z.land b 0x3F) :: utf8_go O 0 bs'
      | S p => utf8_go p (acc * 64 + Z.land b 0x3F) bs'
      end
  end.

Definition u (s : string) : str :=
  utf8_go O 0 (map (fun a => Z.of_nat (nat_of_ascii a)) (list_ascii_of_string s)).

Arguments u : simpl never.

(** ** Character classes *)

(** [Py_UNICODE_ISSPACE]: the code points that [str.strip()] removes and
    that [\s] matches in a [str] pattern. The list is the whole of the
    Unicode white-space table. *)
Definition isspace (c : Z) : bool :=
  ((0x09 <=? c) && (c <=? 0x0D)) || ((0x1C <=? c) && (c <=? 0x20))
  || (c =? 0x85) || (c =? 0xA0) || (c =? 0x1680)
  || ((0x2000 <=? c) && (c <=? 0x200A))
  || (c =? 0x2028) || (c =? 0x2029) || (c =? 0x202F) || (c =? 0x205F)
  || (c =? 0x3000).

(** The alphanumeric table of the Unicode database ([str.isalnum] on one
    code point) beyond the part written out in [isalnum]: the development
    holds for every such table. *)
Class UnicodeDB := { uni_isalnum : Z -> bool }.

(** The symbols that occur as literals in the source: U+2705, U+2713,
    U+2611, U+FE0F (the variation selector after U+2611), U+1F504, U+23F3
    and U+1F914. None is a letter or a digit. *)
Definition source_symbols : list Z :=
  [0x2705; 0x2713; 0x2611; 0xFE0F; 0x1F504; 0x23F3; 0x1F914].

Definition is_symbol (c : Z) : bool := existsb (Z.eqb c) source_symbols.

Definition ascii_isalnum (c : Z) : bool :=
  ((0x30 <=? c) && (c <=? 0x39)) || ((0x41 <=? c) && (c <=? 0x5A))
  || ((0x61 <=? c) && (c <=? 0x7A)).

Definition isalnum `{UnicodeDB} (c : Z) : bool :=
  if c <? 0x80 then ascii_isalnum c
  else if isspace c || is_symbol c then false
  else uni_isalnum c.

(** The Unicode table that knows no letter or digit beyond those
    written out in [isalnum]; the inputs of the examples stay within
    ASCII and the symbols of the source, where it is not consulted. *)
Definition plain_unicode : UnicodeDB := {| uni_isalnum := fun _ => false |}.

(** ** [str.strip()] *)

Fixpoint lstrip (s : str) : str :=
  match s with
  | [] => []
  | c :: s' => if isspace c then lstrip s' else s
  end.

Definition rstrip (s : str) : str := rev (lstrip (rev s)).

Definition strip (s : str) : str := rstrip (lstrip s).

(** A string that neither starts nor ends with white space. *)
Definition trimmed (s : str) : bool :=
  match s with
  | [] => true
  | c :: _ => negb (isspace c) && negb (isspace (last s c))
  end.

(** ** [str(n)] for a non-negative integer, as used by f-strings *)

Definition digit (d : nat) : Z := 0x30 + Z.of_nat d.

Fixpoint str_of_nat_go (fuel n : nat) (acc : str) : str :=
  match fuel with
  | O => acc
  | S fuel' =>
      let acc' := digit (n mod 10) :: acc in
      if (n <? 10)%nat then acc' else str_of_nat_go fuel' (n / 10) acc'
  end.

Definition str_of_nat (n : nat) : str := str_of_nat_go (S n) n [].

End Py.

Import Py.

(* ================================================================== *)
(** * The part of [re] that [parse_message] uses                       *)
(* ================================================================== *)

Module Re.

Section Engine.
Context `{UnicodeDB}.

(** [\w] of a [str] pattern: alphanumeric or underscore. *)
Definition is_word (c : Z) : bool := isalnum c || (c =? 0x5F).

(** The character before the current position: [None] at the start of
    the string, which [\b] treats like a non-word character (so does the
    end of the string). *)
Definition word_before (prev : option Z) : bool :=
  match prev with Some c => is_word c | None => false end.

Definition word_here (s : str) : bool :=
  match s with c :: _ => is_word c | [] => false end.

(** [\b]: exactly one of the two sides is a word character. *)
Definition at_boundary (prev : option Z) (s : str) : bool :=
  negb (Bool.eqb (word_before prev) (word_here s)).

(** ** Literals under [re.IGNORECASE]

    The compiler lower-cases the literal and, when the result has other
    lower-case forms ([_equivalences]), matches a character whose lower
    case is any of them. [unicode_tolower] is the simple lower-case
    mapping on the characters that map to an ASCII letter (A-Z, U+0130 and
    U+212A) and the identity elsewhere: every literal of the patterns
    below is an ASCII lower-case letter, a space or a symbol, and against
    those the comparison decides as the full mapping does. *)
Definition unicode_tolower (c : Z) : Z :=
  if (0x41 <=? c) && (c <=? 0x5A) then c + 0x20
  else if c =? 0x130 then 0x69
  else if c =? 0x212A then 0x6B
  else c.

Definition equivalences (lo : Z) : list Z :=
  if lo =? 0x69 then [0x131]
  else if lo =? 0x73 then [0x17F]
  else [].

Definition lit_match (p c : Z) : bool :=
  let lo := unicode_tolower p in
  let lc := unicode_tolower c in
  (lc =? lo) || existsb (Z.eqb lc) (equivalences lo).

(** ** Patterns *)

Inductive cclass :=
| Space    (** [\s] *)
| AnyChar. (** [.], without [DOTALL]: anything but a line feed *)

Definition in_class (k : cclass) (c : Z) : bool :=
  match k with
  | Space => isspace c
  | AnyChar => negb (c =? 0x0A)
  end.

Inductive regex :=
| Eps
| Lit (p : Z)
| Bnd                   (** [\b] *)
| Seq (r1 r2 : regex)
| Alt (r1 r2 : regex)   (** [r1|r2], [r1] tried first *)
| Opt (r : regex)       (** [r?], greedy *)
| Star (k : cclass)     (** [k*], greedy *)
| Plus (k : cclass)     (** [k+], greedy *)
| Grp (r : regex).      (** [(r)]; no caller reads the captured text *)

(** A run of literal characters. *)
Fixpoint lits (s : str) : regex :=
  match s with
  | [] => Eps
  | [c] => Lit c
  | c :: s' => Seq (Lit c) (lits s')
  end.

(** ** The backtracking matcher

    [run r prev s k] matches [r] at the front of [s] and hands the rest to
    the continuation [k]; when [k] fails the next way of matching [r] is
    tried, in the order of [re]: the first alternative before the second,
    the longer repetition before the shorter. The result is what [k]
    returns for the first way that succeeds. *)
Section Run.
Variable R : Type.

Fixpoint run_star (k : cclass) (prev : option Z) (s : str)
         (cont : option Z -> str -> option R) : option R :=
  match s with
  | c :: s' =>
      if in_class k c then
        match run_star k (Some c) s' cont with
        | Some x => Some x
        | None => cont prev s
        end
      else cont prev s
  | [] => cont prev s
  end.

Fixpoint run (r : regex) (prev : option Z) (s : str)
         (cont : option Z -> str -> option R) : option R :=
  match r with
  | Eps => cont prev s
  | Lit p =>
      match s with
      | c :: s' => if lit_match p c then cont (Some c) s' else None
      | [] => None
      end
  | Bnd => if at_boundary prev s then cont prev s else None
  | Seq r1 r2 => run r1 prev s (fun prev' s' => run r2 prev' s' cont)
  | Alt r1 r2 =>
      match run r1 prev s cont with
      | Some x => Some x
      | None => run r2 prev s cont
      end
  | Opt r1 =>
      match run r1 prev s cont with
      | Some x => Some x
      | None => cont prev s
      end
  | Star k => run_star k prev s cont
  | Plus k =>
      match s with
      | c :: s' => if in_class k c then run_star k (Some c) s' cont else None
      | [] => None
      end
  | Grp r1 => run r1 prev s cont
  end.

End Run.

(** The match of [r] that starts at the front of [s], as the number of
    characters it spans. *)
Definition match_len (r : regex) (prev : option Z) (s : str) : option nat :=
  run r prev s (fun _ rest => Some (len s - len rest)%nat).

(** [re.search(r, s, re.IGNORECASE)] as a truth value: some position of
    [s], the end included, starts a match. *)
Fixpoint search_from (r : regex) (prev : option Z) (s : str) : bool :=
  match match_len r prev s with
  | Some _ => true
  | None =>
      match s with
      | [] => false
      | c :: s' => search_from r (Some c) s'
      end
  end.

Definition search (r : regex) (s : str) : bool := search_from r None s.

(** [re.sub(r, '', s, flags=re.IGNORECASE)]: the leftmost matches, not
    overlapping, are dropped. [skip] characters of the match found last
    are still to be dropped; a new match is looked for only when it is
    zero. An empty match is replaced by the empty string, which changes
    nothing. *)
Fixpoint sub_go (r : regex) (prev : option Z) (s : str) (skip : nat) : str :=
  match s with
  | [] => []
  | c :: s' =>
      match skip with
      | S n => sub_go r (Some c) s' n
      | O =>
          match match_len r prev s with
          | Some (S n) => sub_go r (Some c) s' n
          | _ => c :: sub_go r (Some c) s' O
          end
      end
  end.

Definition sub_empty (r : regex) (s : str) : str := sub_go r None s O.

End Engine.

Declare Scope re_scope.
Delimit Scope re_scope with re.
Bind Scope re_scope with regex.
Infix ">>" := Seq (at level 60, right associativity) : re_scope.
Infix "<|>" := Alt (at level 70, right associativity) : re_scope.

End Re.

Import Re.

(* ================================================================== *)
(** * [TaskParser]                                                     *)
(* ================================================================== *)

Module TaskParser.

Local Open Scope re_scope.

Definition completed_opt : regex := lits (u "complete") >> Opt (Lit 0x64).
Definition finished_opt : regex := lits (u "finishe") >> Opt (Lit 0x64).
Definition done : regex := lits (u "done").

(** [done_patterns], in the order of the source. *)
Definition done_patterns : list regex :=
  [ (* \b(completed?|finished?|done)\b *)
    Bnd >> Grp (completed_opt <|> finished_opt <|> done) >> Bnd;
    (* \b(U+2705|U+2713|U+2611 U+FE0F)\b *)
    Bnd >> Grp (lits (u "✅") <|> lits (u "✓") <|> lits (u "☑️")) >> Bnd;
    (* \bcompleted?\s+(.+) *)
    Bnd >> completed_opt >> Plus Space >> Grp (Plus AnyChar);
    (* \bfinished?\s+(.+) *)
    Bnd >> finished_opt >> Plus Space >> Grp (Plus AnyChar);
    (* \bdone\s+(.+) *)
    Bnd >> done >> Plus Space >> Grp (Plus AnyChar) ].

(** [progress_patterns], in the order of the source. *)
Definition progress_patterns : list regex :=
  [ (* \b(working on|started|begun|in progress)\b *)
    Bnd >> Grp (lits (u "working on") <|> lits (u "started")
               <|> lits (u "begun") <|> lits (u "in progress")) >> Bnd;
    (* \b(U+1F504|U+23F3)\b *)
    Bnd >> Grp (lits (u "🔄") <|> lits (u "⏳")) >> Bnd;
    (* \bworking on\s+(.+) *)
    Bnd >> lits (u "working on") >> Plus Space >> Grp (Plus AnyChar);
    (* \bstarted\s+(.+) *)
    Bnd >> lits (u "started") >> Plus Space >> Grp (Plus AnyChar) ].

(** The pattern of the [re.sub] of the done branch:
    [\b(completed?|finished?|done|U+2705|U+2713|U+2611 U+FE0F)\s*]. *)
Definition done_strip : regex :=
  Bnd >> Grp (completed_opt <|> finished_opt <|> done
             <|> lits (u "✅") <|> lits (u "✓") <|> lits (u "☑️"))
      >> Star Space.

(** The pattern of the [re.sub] of the in-progress branch:
    [\b(working on|started|begun|in progress|U+1F504|U+23F3)\s*]. *)
Definition progress_strip : regex :=
  Bnd >> Grp (lits (u "working on") <|> lits (u "started") <|> lits (u "begun")
             <|> lits (u "in progress") <|> lits (u "🔄") <|> lits (u "⏳"))
      >> Star Space.

Definition Done : str := u "Done".
Definition InProgress : str := u "In Progress".

Section Parse.
Context `{UnicodeDB}.

(** [for pattern in patterns: if re.search(pattern, text, re.IGNORECASE)]:
    the body returns at the first pattern that matches, and does the same
    whichever pattern it was. *)
Definition any_match (patterns : list regex) (text : str) : bool :=
  existsb (fun p => search p text) patterns.

Definition parse_message (text : str) : str * str :=
  let text := strip text in
  if any_match done_patterns text then
    (strip (sub_empty done_strip text), Done)
  else if any_match progress_patterns text then
    (strip (sub_empty progress_strip text), InProgress)
  else (text, Done).

End Parse.

End TaskParser.

Import TaskParser.

(* ================================================================== *)
(** * The world around the bot                                         *)
(* ================================================================== *)

Module Sheets.

(** An exception that derives from [Exception], with its message: what
    [gspread], the HTTP transport and the credential loader raise. *)
Inductive exn := Exception (msg : str).

Definition exn_msg (e : exn) : str := match e with Exception m => m end.

(** The outcome of a Python call: a value, or an exception on its way
    up. *)
Definition result (A : Type) : Type := (A + exn)%type.

(** [datetime.now()], to the minute. *)
Record datetime := mk_datetime
  { year : nat; month : nat; day : nat; hour : nat; minute : nat }.

(** [%m], [%d], [%H], [%M]: two digits, zero-padded. *)
Definition pad2 (n : nat) : str :=
  if (n <? 10)%nat then digit 0 :: str_of_nat n else str_of_nat n.

(** [now.strftime("%Y-%m-%d")]; [%Y] is the year in decimal. *)
Definition strftime_Ymd (now : datetime) : str :=
  str_of_nat (year now) ++ u "-" ++ pad2 (month now) ++ u "-" ++ pad2 (day now).

(** [now.strftime("%H:%M")]. *)
Definition strftime_HM (now : datetime) : str :=
  pad2 (hour now) ++ u ":" ++ pad2 (minute now).

(** The formats in the words of the specification: [YYYY-MM-DD] and
    [HH:MM], digit by digit. *)
Definition yyyy_mm_dd (now : datetime) : str :=
  [ digit (year now / 1000); digit (year now / 100 mod 10);
    digit (year now / 10 mod 10); digit (year now mod 10); 0x2D;
    digit (month now / 10); digit (month now mod 10); 0x2D;
    digit (day now / 10); digit (day now mod 10) ].

Definition hh_mm (now : datetime) : str :=
  [ digit (hour now / 10); digit (hour now mod 10); 0x3A;
    digit (minute now / 10); digit (minute now mod 10) ].

(** The readings of a clock whose year has four digits. *)
Definition valid_datetime (now : datetime) : bool :=
  ((1000 <=? year now) && (year now <? 10 * 1000)
   && (1 <=? month now) && (month now <=? 12)
   && (1 <=? day now) && (day now <=? 31)
   && (hour now <=? 23) && (minute now <=? 59))%nat.

(** The worksheet object that [gc.open_by_key(...).sheet1] returns. *)
Inductive Worksheet := sheet1.

(** ** The spreadsheet service

    What the three [gspread] calls of the source do to a sheet in state
    [St] when the request goes through: [row_values] and [get_all_values]
    read, [update] writes; each may be refused with an exception. *)
Class SheetService (St : Type) :=
  { svc_row_values : nat -> St -> result (list str);
    svc_get_all_values : St -> result (list (list str));
    svc_update : str -> list (list str) -> St -> result St }.

Inductive call :=
| RowValues (row : nat)
| GetAllValues
| Update (range : str) (values : list (list str)).

Definition is_update (c : call) : bool :=
  match c with Update _ _ => true | _ => false end.

Inductive level := INFO | ERROR.

(** The state the code runs against. [faults] schedules the exceptions of
    the transport: each service call takes the head of the list and, when
    it is [Some e], raises [e] and leaves the sheet alone. [calls], [logs]
    and [outbox] grow at the end. *)
Record World (St : Type) := mk_world
  { store : St;
    faults : list (option exn);
    clock : datetime;
    calls : list call;
    logs : list (level * str);
    outbox : list str }.

Section Monad.
Variable St : Type.
Context `{SheetService St}.

(** Python code over the world: it returns or raises, and leaves a
    world behind either way. *)
Definition Py (A : Type) : Type := World St -> result A * World St.

Definition ret {A} (a : A) : Py A := fun w => (inl a, w).

Definition raise {A} (e : exn) : Py A := fun w => (inr e, w).

Definition bind {A B} (m : Py A) (f : A -> Py B) : Py B :=
  fun w =>
    match m w with
    | (inl a, w') => f a w'
    | (inr e, w') => (inr e, w')
    end.

(** [try: body / except Exception as e: handler e]. *)
Definition try_except {A} (body : Py A) (handler : exn -> Py A) : Py A :=
  fun w =>
    match body w with
    | (inl a, w') => (inl a, w')
    | (inr e, w') => handler e w'
    end.

Definition set_store (s : St) (w : World St) : World St :=
  mk_world s (faults w) (clock w) (calls w) (logs w) (outbox w).

Definition set_faults (fs : list (option exn)) (w : World St) : World St :=
  mk_world (store w) fs (clock w) (calls w) (logs w) (outbox w).

Definition add_call (c : call) (w : World St) : World St :=
  mk_world (store w) (faults w) (clock w) (calls w ++ [c]) (logs w) (outbox w).

Definition add_log (l : level) (msg : str) (w : World St) : World St :=
  mk_world (store w) (faults w) (clock w) (calls w) (logs w ++ [(l, msg)])
           (outbox w).

Definition add_reply (msg : str) (w : World St) : World St :=
  mk_world (store w) (faults w) (clock w) (calls w) (logs w)
           (outbox w ++ [msg]).

(** A request to the service: logged in [calls], then either the
    scheduled fault or the answer of the service. *)
Definition request {A} (c : call) (serve : St -> result (A * St)) : Py A :=
  fun w =>
    let w := add_call c w in
    match faults w with
    | Some e :: fs => (inr e, set_faults fs w)
    | fs =>
        let w := set_faults (tl fs) w in
        match serve (store w) with
        | inl (a, s') => (inl a, set_store s' w)
        | inr e => (inr e, w)
        end
    end.

Definition keep {A} (s : St) (r : result A) : result (A * St) :=
  match r with inl a => inl (a, s) | inr e => inr e end.

(** [self.sheet.row_values(row)] *)
Definition row_values (ws : Worksheet) (row : nat) : Py (list str) :=
  request (RowValues row) (fun s => keep s (svc_row_values row s)).

(** [self.sheet.get_all_values()] *)
Definition get_all_values (ws : Worksheet) : Py (list (list str)) :=
  request GetAllValues (fun s => keep s (svc_get_all_values s)).

(** [self.sheet.update(range, values)] *)
Definition update (ws : Worksheet) (range : str) (values : list (list str))
  : Py unit :=
  request (Update range values)
          (fun s => match svc_update range values s with
                    | inl s' => inl (tt, s')
                    | inr e => inr e
                    end).

Definition datetime_now : Py datetime := fun w => (inl (clock w), w).

Definition logger_info (msg : str) : Py unit :=
  fun w => (inl tt, add_log INFO msg w).

Definition logger_error (msg : str) : Py unit :=
  fun w => (inl tt, add_log ERROR msg w).

(** [await update.message.reply_text(msg)] when the reply is delivered;
    [Transport.reply_text] below is the call that may raise. *)
Definition reply_text (msg : str) : Py unit :=
  fun w => (inl tt, add_reply msg w).

End Monad.

Arguments ret {St A} a.
Arguments raise {St A} e.
Arguments datetime_now {St}.
Arguments logger_info {St} msg.
Arguments logger_error {St} msg.
Arguments reply_text {St} msg.

Declare Scope py_scope.
Delimit Scope py_scope with py.
Notation "x <- m ;; k" := (bind m (fun x => k))
  (at level 61, m at next level, right associativity) : py_scope.
Notation "m ;; k" := (bind m (fun _ => k))
  (at level 61, right associativity) : py_scope.

End Sheets.

Import Sheets.

(* ================================================================== *)
(** * [GoogleSheetsManager]                                            *)
(* ================================================================== *)

Module GoogleSheetsManager.

Local Open Scope py_scope.

(** [self.sheet]: [None] until the connection is made. *)
Record t := mk { sheet : option Worksheet }.

Definition header_row : list str :=
  [u "Date"; u "Time"; u "Task"; u "Status"; u "Notes"].

Section Methods.
Variable St : Type.
Context `{SheetService St}.

(** [setup_headers]. [not headers] is true of the empty list, which the
    test on the length covers as well. *)
Definition setup_headers (ws : Worksheet) : Py St unit :=
  try_except
    (headers <- row_values ws 1 ;;
     if match headers with [] => true | _ => false end
        || (List.length headers <? 4)%nat
     then
       update ws (u "A1:E1") [header_row] ;;
       logger_info (u "📝 Headers set up in Google Sheet")
     else ret tt)
    (fun e => logger_error (u "❌ Error setting up headers: " ++ exn_msg e)).

(** [setup_sheet], as [__init__] calls it on a manager whose [sheet] is
    [None]. [open_sheet] stands for the lines that parse the credentials,
    authorize and open the first worksheet, any of which may raise. The
    result is the manager after the call. *)
Definition setup_sheet (open_sheet : Py St Worksheet) : Py St t :=
  try_except
    (ws <- open_sheet ;;
     setup_headers ws ;;
     logger_info (u "✅ Google Sheets connected successfully!") ;;
     ret (mk (Some ws)))
    (fun e =>
       logger_error (u "❌ Failed to connect to Google Sheets: " ++ exn_msg e) ;;
       ret (mk None)).

(** The range [f'A{next_row}:E{next_row}']. *)
Definition row_range (next_row : nat) : str :=
  u "A" ++ str_of_nat next_row ++ u ":E" ++ str_of_nat next_row.

(** [add_task]. *)
Definition add_task (self : t) (task_text status : str) : Py St bool :=
  try_except
    (match sheet self with
     | None => ret false
     | Some ws =>
         now <- datetime_now ;;
         let date_str := strftime_Ymd now in
         let time_str := strftime_HM now in
         rows <- get_all_values ws ;;
         let next_row := (List.length rows + 1)%nat in
         update ws (row_range next_row)
                [[date_str; time_str; task_text; status; []]] ;;
         logger_info (u "✅ Task added to Google Sheet: " ++ task_text) ;;
         ret true
     end)
    (fun e =>
       logger_error (u "❌ Error adding task to Google Sheet: " ++ exn_msg e) ;;
       ret false).

End Methods.

(** The row that [add_task] writes at the time [now]. *)
Definition task_row (now : datetime) (task status : str) : list str :=
  [strftime_Ymd now; strftime_HM now; task; status; []].

(** The test [not headers or len(headers) < 4] of [setup_headers]. *)
Definition short (headers : list str) : bool :=
  match headers with [] => true | _ => false end
  || (List.length headers <? 4)%nat.

(** The first row holds a header already: it reads back with four
    columns or more. *)
Definition has_header {St} `{SheetService St} (s : St) : Prop :=
  exists v, svc_row_values 1 s = inl v /\ (4 <= List.length v)%nat.

(** The service gives back the header row once it has been written into
    a first row that read shorter than four columns. *)
Definition reads_back_header (St : Type) `{SheetService St} : Prop :=
  forall s v s',
    svc_row_values 1 s = inl v -> (List.length v < 4)%nat ->
    svc_update (u "A1:E1") [header_row] s = inl s' ->
    svc_row_values 1 s' = inl header_row.

End GoogleSheetsManager.

(* ================================================================== *)
(** * [handle_message]                                                 *)
(* ================================================================== *)

Module Bot.

Local Open Scope py_scope.
Import GoogleSheetsManager.

Definition nl : str := [0x0A].

Definition more_details : str :=
  u "🤔 Could you provide more details about your task?".

Definition sorry : str :=
  u "❌ Sorry, there was an issue saving your task. Please try again.".

Definition went_wrong : str := u "🤖 Something went wrong. Please try again!".

Definition task_recorded (task status : str) : str :=
  let status_emoji := if str_eqb status Done then u "✅" else u "🔄" in
  status_emoji ++ u " **Task Recorded!**" ++ nl ++ nl
  ++ u "📝 **Task:** " ++ task ++ nl
  ++ u "📊 **Status:** " ++ status ++ nl
  ++ u "💾 **Saved to Google Sheets**".

Section Handler.
Variable St : Type.
Context `{SheetService St} `{UnicodeDB}.

(** [handle_message] on an update that carries a user and the message
    text [message_text] (what the [filters.TEXT] handler receives), with
    the global [sheets_manager]. [user_name] is computed and not used.
    The body returns after the request for details; otherwise it goes on
    to [add_task]. Every reply is taken as delivered here;
    [Transport.handle_message] below is the handler with replies that may
    raise, and the two agree when no fault is scheduled. *)
Definition handle_message (sheets_manager : t) (message_text : str)
  : Py St unit :=
  try_except
    (let '(task, status) := parse_message message_text in
     if (len (strip task) <? 3)%nat then reply_text more_details
     else
       success <- add_task sheets_manager task status ;;
       if success then reply_text (task_recorded task status)
       else reply_text sorry)
    (fun e =>
       logger_error (u "Error handling message: " ++ exn_msg e) ;;
       reply_text went_wrong).

End Handler.

End Bot.

(* ================================================================== *)
(** * [handle_message] on a transport that may fail                    *)
(* ================================================================== *)

(** [Bot.handle_message] takes every reply as delivered. Here a reply
    goes through the transport like a request to the sheet: it takes the
    head of [faults] and raises it when there is one, and then nothing
    is sent. The [except] branch of [handle_message] is reached this way,
    and so is the user notified of a failure that was not one of the
    sheet. *)
Module Transport.

Local Open Scope py_scope.
Import GoogleSheetsManager Bot.

(** [await update.message.reply_text(msg)] *)
Definition reply_text {St : Type} (msg : str) : Py St unit :=
  fun w =>
    match faults w with
    | Some e :: fs => (inr e, set_faults fs w)
    | fs => (inl tt, add_reply msg (set_faults (tl fs) w))
    end.

Section Handler.
Variable St : Type.
Context `{SheetService St} `{UnicodeDB}.

(** [handle_message], line by line as [Bot.handle_message]. *)
Definition handle_message (sheets_manager : t) (message_text : str)
  : Py St unit :=
  try_except
    (let '(task, status) := parse_message message_text in
     if (len (strip task) <? 3)%nat then reply_text more_details
     else
       success <- add_task sheets_manager task status ;;
       if success then reply_text (task_recorded task status)
       else reply_text sorry)
    (fun e =>
       logger_error (u "Error handling message: " ++ exn_msg e) ;;
       reply_text went_wrong).

(** The reply that the body of [handle_message] sends for a text, given
    what [add_task] returned. *)
Definition first_reply (message_text : str) (success : bool) : str :=
  let '(task, status) := parse_message message_text in
  if (len (strip task) <? 3)%nat then more_details
  else if success then task_recorded task status
  else sorry.

(** The end of [handle_message] from the world [w1] in which its body
    sends [reply]: the reply is delivered; or it raises, the error is
    logged and [went_wrong] is sent in its place; or that raises as well
    and the exception leaves [handle_message]. *)
Definition deliver (reply : str) (w1 : World St) : result unit * World St :=
  match faults w1 with
  | Some e :: fs =>
      let w2 :=
        add_log ERROR (u "Error handling message: " ++ exn_msg e)
                (set_faults fs w1) in
      match fs with
      | Some e2 :: fs2 => (inr e2, set_faults fs2 w2)
      | _ => (inl tt, add_reply went_wrong (set_faults (tl fs) w2))
      end
  | fs => (inl tt, add_reply reply (set_faults (tl fs) w1))
  end.

End Handler.

End Transport.

(* ================================================================== *)
(** * A sheet held in memory                                           *)
(* ================================================================== *)

(** An instance of the service to run the code on: the sheet is the list
    of its rows up to the last populated one, row 1 first (a blank sheet
    is the empty list). It answers the two shapes of range that the
    source writes to, and refuses any other. *)
Module MemSheet.

Definition grid := list (list str).

(** A row as [row_values] reports it: up to its last non-empty cell. *)
Fixpoint drop_trailing_empty (r : list str) : list str :=
  match r with
  | [] => []
  | c :: r' =>
      match drop_trailing_empty r', c with
      | [], [] => []
      | r'', _ => c :: r''
      end
  end.

Definition isdigit (c : Z) : bool := (0x30 <=? c) && (c <=? 0x39).

Fixpoint read_nat (acc : nat) (s : str) : nat * str :=
  match s with
  | c :: s' =>
      if isdigit c then read_nat (10 * acc + Z.to_nat (c - 0x30)) s'
      else (acc, s)
  | [] => (acc, s)
  end.

(** The row of a range [A<n>:E<n>]. *)
Definition range_row (range : str) : option nat :=
  match range with
  | a :: s =>
      let '(n, s1) := read_nat 0 s in
      match s1 with
      | colon :: e :: s2 =>
          let '(m, s3) := read_nat 0 s2 in
          if (a =? 0x41) && (colon =? 0x3A) && (e =? 0x45)
             && (n =? m)%nat && (1 <=? n)%nat
             && match s3 with [] => true | _ => false end
          then Some n else None
      | _ => None
      end
  | [] => None
  end.

(** Row [n] (from 1) replaced; the sheet grows by empty rows to reach
    it. *)
Fixpoint set_row (n : nat) (row : list str) (g : grid) : grid :=
  match n with
  | O => g
  | S O => row :: tl g
  | S n' => hd [] g :: set_row n' row (tl g)
  end.

Definition get_row (n : nat) (g : grid) : list str := nth (n - 1) g [].

Definition mem_update (range : str) (values : list (list str)) (g : grid)
  : result grid :=
  match range_row range, values with
  | Some n, [cells] =>
      inl (set_row n (cells ++ skipn (List.length cells) (get_row n g)) g)
  | _, _ => inr (Exception (u "APIError: unable to parse range"))
  end.

(** The rows as [get_all_values] reports them: of a blank sheet, one
    row without cells. *)
Definition reported_rows (g : grid) : list (list str) :=
  match g with
  | [] => [[]]
  | _ => g
  end.

#[export] Instance service : SheetService grid :=
  { svc_row_values := fun n g => inl (drop_trailing_empty (get_row n g));
    svc_get_all_values := fun g => inl (reported_rows g);
    svc_update := mem_update }.

(** A world with this sheet, no fault scheduled, nothing logged. *)
Definition world (g : grid) (now : datetime) : World grid :=
  mk_world g [] now [] [] [].

(** The same with the faults [fs] scheduled. *)
Definition faulty_world (g : grid) (fs : list (option exn)) (now : datetime)
  : World grid :=
  mk_world g fs now [] [] [].

(** A reading of the clock, a manager with its sheet, and a sheet of a
    header and one task, for the examples. *)
Definition now : datetime := mk_datetime 2026 11 4 9 5.

Definition connected : GoogleSheetsManager.t :=
  GoogleSheetsManager.mk (Some sheet1).

Definition two_rows : grid :=
  [GoogleSheetsManager.header_row;
   [u "2026-11-03"; u "17:40"; u "client meeting"; Done; []]].

End MemSheet.

(* ================================================================== *)
(** * What the patterns mean                                           *)
(* ================================================================== *)

(** The matches of a pattern, without the order in which the matcher
    tries them: [matches r prev s prev' s'] when [r] matches a prefix of
    [s] that leaves [s'], with [prev] before it and [prev'] before
    [s']. *)
Module ReSem.

Section Matches.
Context `{UnicodeDB}.

Inductive matches : regex -> option Z -> str -> option Z -> str -> Prop :=
| MEps prev s : matches Eps prev s prev s
| MLit p c prev s :
    lit_match p c = true -> matches (Lit p) prev (c :: s) (Some c) s
| MBnd prev s : at_boundary prev s = true -> matches Bnd prev s prev s
| MSeq r1 r2 prev s prev1 s1 prev2 s2 :
    matches r1 prev s prev1 s1 -> matches r2 prev1 s1 prev2 s2 ->
    matches (Seq r1 r2) prev s prev2 s2
| MAltL r1 r2 prev s prev' s' :
    matches r1 prev s prev' s' -> matches (Alt r1 r2) prev s prev' s'
| MAltR r1 r2 prev s prev' s' :
    matches r2 prev s prev' s' -> matches (Alt r1 r2) prev s prev' s'
| MOptSome r prev s prev' s' :
    matches r prev s prev' s' -> matches (Opt r) prev s prev' s'
| MOptNone r prev s : matches (Opt r) prev s prev s
| MStarNil k prev s : matches (Star k) prev s prev s
| MStarCons k c prev s prev' s' :
    in_class k c = true -> matches (Star k) (Some c) s prev' s' ->
    matches (Star k) prev (c :: s) prev' s'
| MPlus k c prev s prev' s' :
    in_class k c = true -> matches (Star k) (Some c) s prev' s' ->
    matches (Plus k) prev (c :: s) prev' s'
| MGrp r prev s prev' s' :
    matches r prev s prev' s' -> matches (Grp r) prev s prev' s'.

End Matches.

End ReSem.

(** Whole words of the input, in the words of the specification. *)
Module Words.

Definition is_lower (p : Z) : bool := (0x61 <=? p) && (p <=? 0x7A).

(** [c] is the character [p] of a keyword in either ASCII case. *)
Definition cased (p c : Z) : bool :=
  (c =? p) || (is_lower p && (c =? p - 0x20)).

(** The rest of [s] after the keyword [kw], when [s] starts with it in
    some casing. *)
Fixpoint cased_prefix (kw s : str) : option str :=
  match kw, s with
  | [], _ => Some s
  | p :: kw', c :: s' => if cased p c then cased_prefix kw' s' else None
  | _ :: _, [] => None
  end.

Section Contains.
Context `{UnicodeDB}.

(** The keyword stands as a whole word at the front of [s]: no word
    character before it and none after it. *)
Definition word_at (kw : str) (prev : option Z) (s : str) : bool :=
  negb (word_before prev)
  && match cased_prefix kw s with
     | Some rest => negb (word_here rest)
     | None => false
     end.

Fixpoint contains_word_from (kw : str) (prev : option Z) (s : str) : bool :=
  word_at kw prev s
  || match s with
     | [] => false
     | c :: s' => contains_word_from kw (Some c) s'
     end.

Definition contains_word (kw text : str) : bool :=
  contains_word_from kw None text.

(** An alternative [r] spells the keyword [kw] when it matches every
    casing of it, ending on a word character. *)
Definition spells (r : regex) (kw : str) : Prop :=
  forall prev s rest,
    cased_prefix kw s = Some rest ->
    exists c, ReSem.matches r prev s (Some c) rest /\ is_word c = true.

Definition ends_lower (kw : str) : bool := is_lower (last kw 0).

Definition starts_lower (kw : str) : bool :=
  match kw with p :: _ => is_lower p | [] => false end.

End Contains.

(** The words that the first done pattern spells. *)
Definition done_keywords : list str :=
  [u "complete"; u "completed"; u "finishe"; u "finished"; u "done"].

(** The words that the first in-progress pattern spells. *)
Definition progress_keywords : list str :=
  [u "working on"; u "started"; u "begun"; u "in progress"].

End Words.

(* ================================================================== *)
(** * The pattern lists read as a scan of the text                     *)
(* ================================================================== *)

(** What the two lists of [parse_message] look for, written without the
    matcher: a keyword between two word boundaries, compared letter by
    letter as [re.IGNORECASE] compares them, or a glyph between two word
    characters. *)
Module Scan.

Definition done_glyphs : list str := [u "✅"; u "✓"; u "☑️"].

Definition progress_glyphs : list str := [u "🔄"; u "⏳"].

(** A lower-case letter that [re.IGNORECASE] matches with its two ASCII
    forms only: any but i, k and s. *)
Definition plain_letter (p : Z) : bool :=
  Words.is_lower p && negb (p =? 0x69) && negb (p =? 0x6B) && negb (p =? 0x73).

(** The rest of [s] after [g], when [s] starts with [g]. *)
Fixpoint after_prefix (g s : str) : option str :=
  match g, s with
  | [], _ => Some s
  | p :: g', c :: s' => if c =? p then after_prefix g' s' else None
  | _ :: _, [] => None
  end.

(** [t] is [s] with some characters left out. *)
Inductive subseq : str -> str -> Prop :=
| subseq_nil : subseq [] []
| subseq_keep c t s : subseq t s -> subseq (c :: t) (c :: s)
| subseq_drop c t s : subseq t s -> subseq t (c :: s).

Section Scan.
Context `{UnicodeDB}.

(** [s] starts with the keyword [kw] in some casing: the last character
    read (or [prev] when [kw] is empty) and the rest of [s]. *)
Fixpoint ci_prefix (kw : str) (prev : option Z) (s : str)
  : option (option Z * str) :=
  match kw with
  | [] => Some (prev, s)
  | p :: kw' =>
      match s with
      | c :: s' => if lit_match p c then ci_prefix kw' (Some c) s' else None
      | [] => None
      end
  end.

(** The keyword stands at the front of [s] with a word boundary on each
    side. *)
Definition word_ci_at (kw : str) (prev : option Z) (s : str) : bool :=
  at_boundary prev s
  && match ci_prefix kw prev s with
     | Some (prev', rest) => at_boundary prev' rest
     | None => false
     end.

(** The glyph stands at the front of [s] with a word character on each
    side. *)
Definition flanked_at (g : str) (prev : option Z) (s : str) : bool :=
  word_before prev
  && match after_prefix g s with
     | Some rest => word_here rest
     | None => false
     end.

(** [test] holds at some position of [s], the end included. *)
Fixpoint somewhere (test : option Z -> str -> bool) (prev : option Z)
         (s : str) : bool :=
  test prev s
  || match s with
     | [] => false
     | c :: s' => somewhere test (Some c) s'
     end.

Definition mentions (kws : list str) (text : str) : bool :=
  somewhere (fun prev s => existsb (fun kw => word_ci_at kw prev s) kws)
            None text.

Definition flanked (glyphs : list str) (text : str) : bool :=
  somewhere (fun prev s => existsb (fun g => flanked_at g prev s) glyphs)
            None text.

Definition is_done (text : str) : bool :=
  mentions Words.done_keywords text || flanked done_glyphs text.

Definition is_progress (text : str) : bool :=
  mentions Words.progress_keywords text || flanked progress_glyphs text.

(** The status of a trimmed text, by the scan. *)
Definition status_of (text : str) : str :=
  if is_done text then Done
  else if is_progress text then InProgress
  else Done.

End Scan.

End Scan.

(* ================================================================== *)
(** * Facts about strings                                              *)
(* ================================================================== *)

Module PyFacts.

Lemma lstrip_all_space (s : str) :
  forallb isspace s = true -> lstrip s = [].
Proof.
  induction s as [|c s IH]; simpl; [reflexivity|].
  intros Hs. apply andb_true_iff in Hs as [Hc Hs].
  rewrite Hc. now apply IH.
Qed.


Lemma strip_nil : strip [] = [].
Proof. reflexivity. Qed.

Lemma forallb_rev (f : Z -> bool) (l : str) :
  forallb f (rev l) = forallb f l.
Proof.
  induction l as [|c l IH]; [reflexivity|]. simpl.
  rewrite forallb_app, IH. simpl. rewrite andb_true_r. apply andb_comm.
Qed.

(** [lstrip] drops a run of white space and stops at the first other
    character. *)
Lemma lstrip_spec (s : str) :
  exists l, s = l ++ lstrip s /\ forallb isspace l = true
            /\ match lstrip s with [] => True | c :: _ => isspace c = false end.
Proof.
  induction s as [|c s (l & Hs & Hl & Hh)]; simpl.
  - exists []. auto.
  - destruct (isspace c) eqn:Hc.
    + exists (c :: l). simpl. rewrite Hc, Hl. repeat split; [|exact Hh].
      now rewrite <- Hs.
    + exists []. auto.
Qed.

Lemma rstrip_spec (s : str) :
  exists r, s = rstrip s ++ r /\ forallb isspace r = true
            /\ match rstrip s with
               | [] => True
               | c :: _ => isspace (last (rstrip s) c) = false
               end.
Proof.
  unfold rstrip. destruct (lstrip_spec (rev s)) as (l & Hs & Hl & Hh).
  exists (rev l). split; [|split].
  - rewrite <- rev_app_distr, <- Hs. symmetry. apply rev_involutive.
  - now rewrite forallb_rev.
  - destruct (lstrip (rev s)) as [|c t]; [exact I|].
    destruct (rev (c :: t)) as [|d t'] eqn:Hr; [exact I|].
    rewrite <- Hr. simpl. now rewrite last_last.
Qed.

(** [strip] is the text between the white space at its two ends. *)
Lemma strip_spec (s : str) :
  exists l r, s = l ++ strip s ++ r
              /\ forallb isspace l = true /\ forallb isspace r = true
              /\ trimmed (strip s) = true.
Proof.
  unfold strip. destruct (lstrip_spec s) as (l & Hs & Hl & Hh).
  destruct (rstrip_spec (lstrip s)) as (r & Hs' & Hr & Hh').
  exists l, r. split; [now rewrite <- Hs'|]. split; [exact Hl|].
  split; [exact Hr|]. unfold trimmed.
  destruct (rstrip (lstrip s)) as [|c t]; [reflexivity|].
  rewrite Hh'. rewrite Hs' in Hh. simpl in Hh. now rewrite Hh.
Qed.

End PyFacts.

(* ================================================================== *)
(** * The matcher finds every match                                    *)
(* ================================================================== *)

Module ReFacts.

Import ReSem.

Section Complete.
Context `{UnicodeDB}.

(** When [r] has a match after which the continuation succeeds, the
    matcher succeeds: a way it tries earlier can only succeed sooner. *)
Lemma run_complete r prev s prev' s' :
  matches r prev s prev' s' ->
  forall (R : Type) (cont : option Z -> str -> option R),
    cont prev' s' <> None -> run r prev s cont <> None.
Proof.
  induction 1 as
      [ prev s | p c prev s Hc | prev s Hb
      | r1 r2 prev s prev1 s1 prev2 s2 _ IH1 _ IH2
      | r1 r2 prev s prev' s' _ IH | r1 r2 prev s prev' s' _ IH
      | r prev s prev' s' _ IH | r prev s
      | k prev s | k c prev s prev' s' Hk _ IH
      | k c prev s prev' s' Hk _ IH
      | r prev s prev' s' _ IH ];
    intros R cont Hcont; simpl.
  - exact Hcont.
  - now rewrite Hc.
  - now rewrite Hb.
  - apply IH1. now apply IH2.
  - specialize (IH R cont Hcont).
    destruct (run r1 prev s cont); [discriminate | contradiction].
  - destruct (run r1 prev s cont); [discriminate | now apply IH].
  - specialize (IH R cont Hcont).
    destruct (run r prev s cont); [discriminate | contradiction].
  - destruct (run r prev s cont); [discriminate | exact Hcont].
  - destruct s as [|c s]; simpl; [exact Hcont|].
    destruct (in_class k c); [|exact Hcont].
    destruct (run_star k (Some c) s cont); [discriminate | exact Hcont].
  - rewrite Hk. specialize (IH R cont Hcont). simpl in IH.
    destruct (run_star k (Some c) s cont); [discriminate | contradiction].
  - rewrite Hk. specialize (IH R cont Hcont). exact IH.
  - now apply IH.
Qed.

Lemma match_len_complete r prev s prev' s' :
  matches r prev s prev' s' -> match_len r prev s <> None.
Proof.
  intros Hm. unfold match_len. apply (run_complete Hm). discriminate.
Qed.

(** A match at the front is a match that [search] finds. *)
Lemma search_from_here r prev s :
  match_len r prev s <> None -> search_from r prev s = true.
Proof.
  intros Hm. destruct s; simpl; destruct (match_len r prev _);
    try reflexivity; contradiction.
Qed.

Lemma search_from_later r prev c s :
  search_from r (Some c) s = true -> search_from r prev (c :: s) = true.
Proof.
  intros Hs. simpl. now destruct (match_len r prev (c :: s)).
Qed.

End Complete.

End ReFacts.

(* ================================================================== *)
(** * Whole words are found by the first pattern of each list          *)
(* ================================================================== *)

Module WordsFacts.

Import ReSem ReFacts Words.
Local Open Scope re_scope.

Section Spelling.
Context `{UnicodeDB}.

Lemma cased_lit_match p c : cased p c = true -> lit_match p c = true.
Proof.
  unfold cased, lit_match, is_lower, unicode_tolower. intros Hc.
  apply orb_true_iff. left. apply Z.eqb_eq.
  apply orb_true_iff in Hc as [Hc | Hc].
  - apply Z.eqb_eq in Hc. now subst c.
  - apply andb_true_iff in Hc as [Hp Hc].
    apply andb_true_iff in Hp as [Hlo Hhi].
    apply Z.leb_le in Hlo, Hhi. apply Z.eqb_eq in Hc. subst c.
    replace ((65 <=? p - 32) && (p - 32 <=? 90)) with true
      by (symmetry; apply andb_true_iff; split; apply Z.leb_le; lia).
    replace ((65 <=? p) && (p <=? 90)) with false
      by (symmetry; apply andb_false_iff; right; apply Z.leb_gt; lia).
    replace (p =? 304) with false by (symmetry; apply Z.eqb_neq; lia).
    replace (p =? 8490) with false by (symmetry; apply Z.eqb_neq; lia).
    lia.
Qed.

Lemma cased_lower_word p c :
  is_lower p = true -> cased p c = true -> is_word c = true.
Proof.
  unfold cased, is_lower, is_word, isalnum, ascii_isalnum. intros Hp Hc.
  rewrite Hp in Hc. apply andb_true_iff in Hp as [Hlo Hhi].
  apply Z.leb_le in Hlo, Hhi.
  assert (Hcp : c = p \/ c = p - 32).
  { apply orb_true_iff in Hc as [Hc | Hc]; apply Z.eqb_eq in Hc; auto. }
  replace (c <? 128) with true by (symmetry; apply Z.ltb_lt; lia).
  apply orb_true_iff. left.
  destruct Hcp as [-> | ->].
  - apply orb_true_iff. right. apply andb_true_iff; split; apply Z.leb_le; lia.
  - apply orb_true_iff. left. apply orb_true_iff. right.
    apply andb_true_iff; split; apply Z.leb_le; lia.
Qed.

Lemma cased_prefix_app k1 k2 s rest :
  cased_prefix (k1 ++ k2) s = Some rest ->
  exists mid, cased_prefix k1 s = Some mid /\ cased_prefix k2 mid = Some rest.
Proof.
  revert s. induction k1 as [|p k1 IH]; intros s; simpl.
  - intros Hk. now exists s.
  - destruct s as [|c s]; [discriminate|].
    destruct (cased p c); [apply IH | discriminate].
Qed.

Lemma spells_lits kw : ends_lower kw = true -> spells (lits kw) kw.
Proof.
  unfold ends_lower. induction kw as [|p kw IH]; intros Hl prev s rest Hp.
  - discriminate.
  - simpl in Hp. destruct s as [|c s]; [discriminate|].
    destruct (cased p c) eqn:Hc; [|discriminate].
    destruct kw as [|q kw].
    + simpl in Hp. injection Hp as <-. exists c. split.
      * constructor. now apply cased_lit_match.
      * now apply (cased_lower_word p).
    + destruct (IH Hl (Some c) s rest Hp) as [d [Hm Hd]].
      exists d. split; [|exact Hd].
      change (lits (p :: q :: kw)) with (Lit p >> lits (q :: kw)).
      eapply MSeq; [constructor; now apply cased_lit_match | exact Hm].
Qed.

(** [kw d?] spells [kw] ... *)
Lemma spells_opt_short kw d :
  ends_lower kw = true -> spells (lits kw >> Opt (Lit d)) kw.
Proof.
  intros Hl prev s rest Hp.
  destruct (spells_lits kw Hl prev s Hp) as [c [Hm Hc]].
  exists c. split; [|exact Hc]. eapply MSeq; [exact Hm | apply MOptNone].
Qed.

(** ... and [kw] followed by [d]. *)
Lemma spells_opt_long kw d :
  ends_lower kw = true -> is_lower d = true ->
  spells (lits kw >> Opt (Lit d)) (kw ++ [d]).
Proof.
  intros Hl Hd prev s rest Hp.
  apply cased_prefix_app in Hp as [mid [Hp1 Hp2]].
  destruct (spells_lits kw Hl prev s Hp1) as [c [Hm _]].
  simpl in Hp2. destruct mid as [|e mid]; [discriminate|].
  destruct (cased d e) eqn:He; [|discriminate]. injection Hp2 as <-.
  exists e. split; [|now apply (cased_lower_word d)].
  eapply MSeq; [exact Hm|]. apply MOptSome. constructor.
  now apply cased_lit_match.
Qed.

Lemma spells_alt_l r1 r2 kw : spells r1 kw -> spells (r1 <|> r2) kw.
Proof.
  intros Hs prev s rest Hp. destruct (Hs prev s rest Hp) as [c [Hm Hc]].
  exists c. split; [now apply MAltL | exact Hc].
Qed.

Lemma spells_alt_r r1 r2 kw : spells r2 kw -> spells (r1 <|> r2) kw.
Proof.
  intros Hs prev s rest Hp. destruct (Hs prev s rest Hp) as [c [Hm Hc]].
  exists c. split; [now apply MAltR | exact Hc].
Qed.

Lemma cased_prefix_starts_word kw s rest :
  starts_lower kw = true -> cased_prefix kw s = Some rest ->
  word_here s = true.
Proof.
  destruct kw as [|p kw]; [discriminate|]. simpl. intros Hp Hs.
  destruct s as [|c s]; [discriminate|].
  destruct (cased p c) eqn:Hc; [|discriminate].
  now apply (cased_lower_word p).
Qed.

(** A whole word that one of the alternatives spells is matched by
    [\b(alternatives)\b] where it stands. *)
Lemma word_at_match alts kw prev s :
  spells alts kw -> starts_lower kw = true ->
  word_at kw prev s = true ->
  match_len (Bnd >> Grp alts >> Bnd) prev s <> None.
Proof.
  intros Hsp Hst Hw. unfold word_at in Hw.
  apply andb_true_iff in Hw as [Hprev Hw].
  destruct (cased_prefix kw s) as [rest|] eqn:Hp; [|discriminate].
  destruct (Hsp prev s rest Hp) as [c [Hm Hc]].
  apply (@match_len_complete _ _ prev s (Some c) rest).
  eapply MSeq; [|eapply MSeq; [apply MGrp; exact Hm|]]; constructor.
  - unfold at_boundary.
    rewrite (cased_prefix_starts_word kw s Hst Hp).
    apply negb_true_iff in Hprev. now rewrite Hprev.
  - unfold at_boundary. simpl. rewrite Hc.
    apply negb_true_iff in Hw. now rewrite Hw.
Qed.

Lemma contains_word_search alts kw text :
  spells alts kw -> starts_lower kw = true ->
  contains_word kw text = true ->
  search (Bnd >> Grp alts >> Bnd) text = true.
Proof.
  intros Hsp Hst. unfold contains_word, search. generalize (@None Z).
  induction text as [|c text IH]; intros prev Hc; simpl in Hc.
  - rewrite orb_false_r in Hc. apply search_from_here.
    now apply word_at_match with (kw := kw).
  - apply orb_true_iff in Hc as [Hc | Hc].
    + apply search_from_here. now apply word_at_match with (kw := kw).
    + apply search_from_later. now apply IH.
Qed.

End Spelling.

End WordsFacts.

(* ================================================================== *)
(** * The classifier                                                   *)
(* ================================================================== *)

Module ParseFacts.

Import Words WordsFacts.
Local Open Scope re_scope.

Section Branches.
Context `{UnicodeDB}.

Lemma done_branch text :
  any_match done_patterns (strip text) = true ->
  parse_message text = (strip (sub_empty done_strip (strip text)), Done).
Proof. intros Hd. unfold parse_message. now rewrite Hd. Qed.

Lemma progress_branch text :
  any_match done_patterns (strip text) = false ->
  any_match progress_patterns (strip text) = true ->
  parse_message text
  = (strip (sub_empty progress_strip (strip text)), InProgress).
Proof. intros Hd Hp. unfold parse_message. now rewrite Hd, Hp. Qed.

Lemma done_alternatives kw :
  In kw done_keywords ->
  spells (completed_opt <|> finished_opt <|> done) kw /\ starts_lower kw = true.
Proof.
  intros Hin. split; [|simpl in Hin; intuition (subst; reflexivity)].
  simpl in Hin. destruct Hin as [<- | [<- | [<- | [<- | [<- | []]]]]].
  - apply spells_alt_l. now apply spells_opt_short.
  - apply spells_alt_l.
    now apply (spells_opt_long (u "complete") 0x64).
  - apply spells_alt_r, spells_alt_l. now apply spells_opt_short.
  - apply spells_alt_r, spells_alt_l.
    now apply (spells_opt_long (u "finishe") 0x64).
  - apply spells_alt_r, spells_alt_r. now apply spells_lits.
Qed.

Lemma progress_alternatives kw :
  In kw progress_keywords ->
  spells (lits (u "working on") <|> lits (u "started") <|> lits (u "begun")
          <|> lits (u "in progress")) kw
  /\ starts_lower kw = true.
Proof.
  intros Hin. split; [|simpl in Hin; intuition (subst; reflexivity)].
  simpl in Hin. destruct Hin as [<- | [<- | [<- | [<- | []]]]].
  - apply spells_alt_l. now apply spells_lits.
  - apply spells_alt_r, spells_alt_l. now apply spells_lits.
  - apply spells_alt_r, spells_alt_r, spells_alt_l. now apply spells_lits.
  - apply spells_alt_r, spells_alt_r, spells_alt_r. now apply spells_lits.
Qed.

(** A done keyword that stands as a whole word makes the done list
    match, by its first pattern. *)
Lemma done_keyword_found kw text :
  In kw done_keywords -> contains_word kw text = true ->
  any_match done_patterns text = true.
Proof.
  intros Hin Hw. destruct (done_alternatives Hin) as [Hsp Hst].
  unfold any_match, done_patterns. cbn [existsb].
  now rewrite (@contains_word_search _ _ kw text Hsp Hst Hw).
Qed.

Lemma progress_keyword_found kw text :
  In kw progress_keywords -> contains_word kw text = true ->
  any_match progress_patterns text = true.
Proof.
  intros Hin Hw. destruct (progress_alternatives Hin) as [Hsp Hst].
  unfold any_match, progress_patterns. cbn [existsb].
  now rewrite (@contains_word_search _ _ kw text Hsp Hst Hw).
Qed.

End Branches.

End ParseFacts.

(* ================================================================== *)
(** * Properties of [parse_message]                                    *)
(* ================================================================== *)

Module Classify.

Import Words ParseFacts.

Section Properties.
Context `{UnicodeDB}.

(** C1, at the input of its own example. The text [U+2705 client
    meeting] holds a done glyph, yet no done pattern matches it: [\b] on
    both sides of a glyph asks for a word character before and after it,
    and the glyph opens the text. No in-progress pattern matches either,
    so the text comes back whole, glyph included, from the fallback
    branch; the status is [Done] only because the fallback says so. *)
Theorem done_glyph_not_stripped :
  any_match done_patterns (u "✅ client meeting") = false
  /\ parse_message (u "✅ client meeting") = (u "✅ client meeting", Done)
  /\ fst (parse_message (u "✅ client meeting")) <> u "client meeting".
Proof.
  split; [|split]; [vm_compute; reflexivity | vm_compute; reflexivity |].
  vm_compute. discriminate.
Qed.

(** C2, at a text that holds an in-progress glyph and nothing else:
    [U+1F504 code review] is matched by no pattern of either list, for
    the same reason as in C1, and is classified [Done] with the glyph
    left in the description. *)
Theorem progress_glyph_classified_done :
  any_match done_patterns (u "🔄 code review") = false
  /\ any_match progress_patterns (u "🔄 code review") = false
  /\ parse_message (u "🔄 code review") = (u "🔄 code review", Done)
  /\ snd (parse_message (u "🔄 code review")) <> InProgress.
Proof.
  repeat split; try (vm_compute; reflexivity).
  vm_compute. discriminate.
Qed.

(** X8. What does hold of the keywords: a whole word of the done list,
    in any ASCII casing, sends the text through the done branch. *)
Lemma done_keyword_classified (text kw : str) :
  In kw done_keywords -> contains_word kw (strip text) = true ->
  parse_message text = (strip (sub_empty done_strip (strip text)), Done).
Proof.
  intros Hin Hw. apply done_branch.
  now apply done_keyword_found with (kw := kw).
Qed.

(** X9. A whole word of the in-progress list, in any ASCII casing,
    sends the text through the in-progress branch, unless the done list
    matches. *)
Lemma progress_keyword_classified (text kw : str) :
  In kw progress_keywords -> contains_word kw (strip text) = true ->
  any_match done_patterns (strip text) = false ->
  parse_message text
  = (strip (sub_empty progress_strip (strip text)), InProgress).
Proof.
  intros Hin Hw Hd. apply progress_branch; [exact Hd|].
  now apply progress_keyword_found with (kw := kw).
Qed.

(** The scenarios of the specification that go through a keyword. *)
Example completed_the_sales_report :
  parse_message (u "Completed the sales report")
  = (u "the sales report", Done).
Proof. vm_compute. reflexivity. Qed.

Example working_on_project_planning :
  parse_message (u "Working on project planning")
  = (u "project planning", InProgress).
Proof. vm_compute. reflexivity. Qed.

(** [finished?] is [finishe] with an optional [d]: the word [finish] is
    matched by no pattern, while [finishe] is. *)
Example finish_is_no_keyword :
  parse_message (u "finish the report") = (u "finish the report", Done)
  /\ parse_message (u "finish working on it") = (u "finish it", InProgress)
  /\ parse_message (u "finishe the report") = (u "the report", Done).
Proof. repeat split; vm_compute; reflexivity. Qed.

(** A glyph is matched only between two word characters. *)
Example glyph_between_letters :
  parse_message (u "a✅b") = (u "ab", Done).
Proof. vm_compute. reflexivity. Qed.

(** C6. The status that [parse_message] returns is one of the two
    labels of the source, ["Done"] and ["In Progress"], for every input
    text. *)
Theorem status_is_done_or_in_progress (text : str) :
  snd (parse_message text) = Done \/ snd (parse_message text) = InProgress.
Proof.
  unfold parse_message.
  destruct (any_match done_patterns (strip text)); [now left|].
  destruct (any_match progress_patterns (strip text)); [now right | now left].
Qed.

(** C7, at [finish working on it]. Both [finish], a done keyword of the
    specification, and [working on] stand in the text as whole words, and
    the status is [In Progress]: [finished?] is [finishe] with an optional
    [d], so no done pattern matches the word [finish], the done branch is
    not taken and the in-progress list decides. *)
Theorem finish_loses_to_in_progress :
  contains_word (u "finish") (u "finish working on it") = true
  /\ contains_word (u "working on") (u "finish working on it") = true
  /\ any_match done_patterns (u "finish working on it") = false
  /\ parse_message (u "finish working on it") = (u "finish it", InProgress)
  /\ snd (parse_message (u "finish working on it")) <> Done.
Proof.
  repeat split; try (vm_compute; reflexivity). vm_compute. discriminate.
Qed.

(** X18. The order of the two lists, for the words that the code
    spells: when the trimmed text holds, as whole words in any ASCII
    casing, both one of complete, completed, finishe, finished, done and
    one of working on, started, begun, in progress, both lists match and
    [parse_message] takes the done branch: the status is [Done] and the
    description is the one the done branch computes. *)
Theorem done_branch_wins (text kd kp : str)
  (Hkd : In kd done_keywords) (Hkp : In kp progress_keywords)
  (Hd : contains_word kd (strip text) = true)
  (Hp : contains_word kp (strip text) = true) :
  any_match done_patterns (strip text) = true
  /\ any_match progress_patterns (strip text) = true
  /\ snd (parse_message text) = Done
  /\ parse_message text = (strip (sub_empty done_strip (strip text)), Done).
Proof.
  assert (Hdone : any_match done_patterns (strip text) = true)
    by now apply done_keyword_found with (kw := kd).
  assert (Hprog : any_match progress_patterns (strip text) = true)
    by now apply progress_keyword_found with (kw := kp).
  rewrite (done_branch text Hdone). auto.
Qed.

(** C8, at [finishe the report]. The text holds none of the nine
    keywords of the specification as a whole word and no glyph, so it
    matches neither indicator list as the specification gives them; yet
    the first done pattern matches [finishe] ([finished?] is [finishe]
    with an optional [d]), the done branch is taken, and the description
    is [the report], not the trimmed text. *)
Theorem finishe_is_stripped :
  forallb (fun kw => negb (contains_word kw (u "finishe the report")))
          [u "completed"; u "complete"; u "finished"; u "finish"; u "done";
           u "working on"; u "started"; u "begun"; u "in progress"] = true
  /\ forallb (fun c => negb (is_symbol c)) (u "finishe the report") = true
  /\ any_match done_patterns (u "finishe the report") = true
  /\ parse_message (u "finishe the report") = (u "the report", Done)
  /\ fst (parse_message (u "finishe the report"))
     <> strip (u "finishe the report").
Proof.
  repeat split; try (vm_compute; reflexivity). vm_compute. discriminate.
Qed.

(** C10. In [completed doneness check] the word [completed] triggers
    the done branch, and [done] is not a whole word of the text; the
    pattern of the [re.sub] has no [\b] after its keywords, so it also
    removes the [done] that opens [doneness], and the description is
    [ness check]. *)
Theorem strip_removes_keyword_prefix :
  contains_word (u "completed") (u "completed doneness check") = true
  /\ contains_word (u "done") (u "completed doneness check") = false
  /\ parse_message (u "completed doneness check") = (u "ness check", Done).
Proof. repeat split; vm_compute; reflexivity. Qed.

End Properties.

(** X18 at [Finished WORKING ON the report]. *)
Lemma done_branch_wins_witness :
  let text := u "Finished WORKING ON the report" in
  @any_match plain_unicode done_patterns (strip text) = true
  /\ @any_match plain_unicode progress_patterns (strip text) = true
  /\ snd (@parse_message plain_unicode text) = Done
  /\ @parse_message plain_unicode text
     = (strip (@sub_empty plain_unicode done_strip (strip text)), Done).
Proof.
  apply (@done_branch_wins plain_unicode (u "Finished WORKING ON the report")
           (u "finished") (u "working on")).
  - simpl. tauto.
  - simpl. tauto.
  - vm_compute. reflexivity.
  - vm_compute. reflexivity.
Defined.

End Classify.

(* ================================================================== *)
(** * Dates and times                                                  *)
(* ================================================================== *)

Module TimeFacts.

Lemma str_eqb_eq a b : str_eqb a b = true -> a = b.
Proof. unfold str_eqb. now destruct (list_eq_dec Z.eq_dec a b). Qed.

Lemma pad2_digits (n : nat) :
  (n < 100)%nat -> pad2 n = [digit (n / 10); digit (n mod 10)].
Proof.
  intros Hn.
  assert (Hall : forallb (fun n => str_eqb (pad2 n)
                                     [digit (n / 10); digit (n mod 10)])
                         (seq 0 100) = true) by (vm_compute; reflexivity).
  rewrite forallb_forall in Hall. apply str_eqb_eq, Hall, in_seq. lia.
Qed.

Lemma str_of_nat_go_step fuel n acc :
  str_of_nat_go (S fuel) n acc
  = if (n <? 10)%nat then digit (n mod 10) :: acc
    else str_of_nat_go fuel (n / 10) (digit (n mod 10) :: acc).
Proof. reflexivity. Qed.

Lemma year_digits (y : nat) :
  (1000 <= y < 10 * 1000)%nat ->
  str_of_nat y = [digit (y / 1000); digit (y / 100 mod 10);
                  digit (y / 10 mod 10); digit (y mod 10)].
Proof.
  intros Hy. unfold str_of_nat.
  assert (H1 : (y / 10 / 10 = y / 100)%nat)
    by (rewrite Nat.Div0.div_div; reflexivity).
  assert (H2 : (y / 100 / 10 = y / 1000)%nat)
    by (rewrite Nat.Div0.div_div; reflexivity).
  assert (B1 : (100 <= y / 10)%nat)
    by (apply Nat.div_le_lower_bound; lia).
  assert (B2 : (10 <= y / 100)%nat)
    by (apply Nat.div_le_lower_bound; lia).
  assert (B3 : (y / 1000 < 10)%nat)
    by (apply Nat.Div0.div_lt_upper_bound; lia).
  destruct y as [|[|[|y]]]; try lia.
  rewrite !str_of_nat_go_step.
  replace (S (S (S y)) <? 10)%nat with false
    by (symmetry; apply Nat.ltb_ge; lia).
  replace (S (S (S y)) / 10 <? 10)%nat with false
    by (symmetry; apply Nat.ltb_ge; lia).
  rewrite H1.
  replace (S (S (S y)) / 100 <? 10)%nat with false
    by (symmetry; apply Nat.ltb_ge; lia).
  rewrite H2.
  replace (S (S (S y)) / 1000 <? 10)%nat with true
    by (symmetry; apply Nat.ltb_lt; lia).
  now rewrite (Nat.mod_small (S (S (S y)) / 1000) 10) by lia.
Qed.

Lemma valid_datetime_bounds now :
  valid_datetime now = true ->
  (1000 <= year now < 10 * 1000 /\ month now < 100 /\ day now < 100
   /\ hour now < 100 /\ minute now < 100)%nat.
Proof.
  unfold valid_datetime. intros Hv.
  repeat (apply andb_true_iff in Hv as [Hv ?]).
  repeat match goal with
         | Hle : (_ <=? _)%nat = true |- _ => apply Nat.leb_le in Hle
         | Hlt : (_ <? _)%nat = true |- _ => apply Nat.ltb_lt in Hlt
         end.
  lia.
Qed.

(** [strftime("%Y-%m-%d")] writes [YYYY-MM-DD] and [strftime("%H:%M")]
    writes [HH:MM]. *)
Lemma strftime_formats now :
  valid_datetime now = true ->
  strftime_Ymd now = yyyy_mm_dd now /\ strftime_HM now = hh_mm now.
Proof.
  intros Hv. apply valid_datetime_bounds in Hv as (Hy & Hm & Hd & Hh & Hmi).
  unfold strftime_Ymd, strftime_HM, yyyy_mm_dd, hh_mm.
  rewrite (year_digits Hy), !pad2_digits by assumption.
  split; reflexivity.
Qed.

End TimeFacts.

(* ================================================================== *)
(** * The sheet client                                                 *)
(* ================================================================== *)

Module SheetFacts.

Import GoogleSheetsManager.

Section Service.
Variable St : Type.
Context `{SheetService St}.

(** The three ways a request ends: the scheduled fault, the answer of
    the service, or its refusal. *)
Lemma request_inv A (c : call) (serve : St -> result (A * St)) w r w' :
  request c serve w = (r, w') ->
  (exists e fs, faults w = Some e :: fs /\ r = inr e
                /\ w' = set_faults fs (add_call c w))
  \/ (exists a s', serve (store w) = inl (a, s') /\ r = inl a
         /\ w' = set_store s' (set_faults (tl (faults w)) (add_call c w)))
  \/ (exists e, serve (store w) = inr e /\ r = inr e
         /\ w' = set_faults (tl (faults w)) (add_call c w)).
Proof.
  unfold request. simpl.
  destruct (faults w) as [|[e|] fs] eqn:Hf; simpl.
  - intros Hr. right.
    destruct (serve (store w)) as [[a s']|e]; injection Hr as <- <-; eauto 7.
  - intros Hr. injection Hr as <- <-. left. eauto.
  - intros Hr. right.
    destruct (serve (store w)) as [[a s']|e]; injection Hr as <- <-; eauto 7.
Qed.

(** A request that raises leaves the sheet as it was. *)
Lemma request_raise_store A (c : call) (serve : St -> result (A * St)) w e w' :
  request c serve w = (inr e, w') ->
  store w' = store w /\ calls w' = calls w ++ [c].
Proof.
  intros Hr. apply request_inv in Hr
    as [(e' & fs & _ & _ & ->) | [(a & s' & _ & Hr & _) | (e' & _ & _ & ->)]];
    try discriminate; now split.
Qed.

Lemma get_all_values_ok ws w rows w1 :
  get_all_values ws w = (inl rows, w1) ->
  svc_get_all_values (store w) = inl rows
  /\ store w1 = store w /\ clock w1 = clock w
  /\ calls w1 = calls w ++ [GetAllValues] /\ logs w1 = logs w.
Proof.
  unfold get_all_values. intros Hr. apply request_inv in Hr
    as [(e & fs & _ & Hr & _) | [(a & s' & Hs & Hr & ->) | (e & _ & Hr & _)]];
    try discriminate.
  injection Hr as ->. unfold keep in Hs.
  destruct (svc_get_all_values (store w)) as [rows'|e]; [|discriminate].
  injection Hs as -> <-. now repeat split.
Qed.

Lemma row_values_ok ws n w v w1 :
  row_values ws n w = (inl v, w1) ->
  svc_row_values n (store w) = inl v
  /\ store w1 = store w /\ faults w1 = tl (faults w)
  /\ calls w1 = calls w ++ [RowValues n].
Proof.
  unfold row_values. intros Hr. apply request_inv in Hr
    as [(e & fs & _ & Hr & _) | [(a & s' & Hs & Hr & ->) | (e & _ & Hr & _)]];
    try discriminate.
  injection Hr as ->. unfold keep in Hs.
  destruct (svc_row_values n (store w)) as [v'|e]; [|discriminate].
  injection Hs as -> <-. now repeat split.
Qed.

Lemma update_ok ws range values w w1 :
  update ws range values w = (inl tt, w1) ->
  svc_update range values (store w) = inl (store w1)
  /\ faults w1 = tl (faults w)
  /\ calls w1 = calls w ++ [Update range values] /\ logs w1 = logs w.
Proof.
  unfold update. intros Hr. apply request_inv in Hr
    as [(e & fs & _ & Hr & _) | [(a & s' & Hs & Hr & ->) | (e & _ & Hr & _)]];
    try discriminate.
  destruct (svc_update range values (store w)) as [s''|e]; [|discriminate].
  injection Hs as _ <-. now repeat split.
Qed.

(** ** [add_task] *)

Lemma add_task_disconnected self task status w :
  sheet self = None -> add_task self task status w = (inl false, w).
Proof. intros Hs. unfold add_task, try_except. now rewrite Hs. Qed.

(** The body of [add_task] on a connected manager, request by
    request. *)
Lemma add_task_connected self ws task status w :
  sheet self = Some ws ->
  add_task self task status w
  = match get_all_values ws w with
    | (inl rows, w1) =>
        match update ws (row_range (List.length rows + 1))
                     [task_row (clock w) task status] w1 with
        | (inl _, w2) =>
            (inl true,
             add_log INFO (u "✅ Task added to Google Sheet: " ++ task) w2)
        | (inr e, w2) =>
            (inl false,
             add_log ERROR
               (u "❌ Error adding task to Google Sheet: " ++ exn_msg e) w2)
        end
    | (inr e, w1) =>
        (inl false,
         add_log ERROR
           (u "❌ Error adding task to Google Sheet: " ++ exn_msg e) w1)
    end.
Proof.
  intros Hs. unfold add_task, try_except. rewrite Hs.
  unfold bind at 1. unfold datetime_now. unfold bind at 1.
  destruct (get_all_values ws w) as [[rows|e] w1]; [|reflexivity].
  unfold bind at 1. unfold task_row.
  destruct (update ws _ _ w1) as [[[]|e] w2]; reflexivity.
Qed.

End Service.

End SheetFacts.

(* ================================================================== *)
(** * Properties of [add_task]                                         *)
(* ================================================================== *)

Module AddTask.

Import GoogleSheetsManager SheetFacts TimeFacts.

Section Properties.
Variable St : Type.
Context `{SheetService St}.

(** C3. A call of [add_task] on a connected manager that returns
    [True] has counted the rows that [get_all_values] reports, and has
    written, in one [update] and no other, the range [A<n>:E<n>] for [n]
    the count plus one, with the five cells date, time, description,
    status and the empty string; the date reads [YYYY-MM-DD] and the time
    [HH:MM] on a clock whose year has four digits. *)
Theorem add_task_writes_next_row self ws task status w w'
  (Hconn : sheet self = Some ws)
  (Hclock : valid_datetime (clock w) = true)
  (Hok : add_task self task status w = (inl true, w')) :
  exists rows,
    svc_get_all_values (store w) = inl rows
    /\ calls w'
       = calls w ++ [GetAllValues;
                     Update (u "A" ++ str_of_nat (List.length rows + 1)
                               ++ u ":E" ++ str_of_nat (List.length rows + 1))
                            [[yyyy_mm_dd (clock w); hh_mm (clock w);
                              task; status; []]]]
    /\ svc_update (row_range (List.length rows + 1))
                  [[yyyy_mm_dd (clock w); hh_mm (clock w); task; status; []]]
                  (store w)
       = inl (store w').
Proof.
  rewrite (add_task_connected self task status w Hconn) in Hok.
  destruct (get_all_values ws w) as [[rows|e] w1] eqn:Hg; [|discriminate].
  destruct (update ws _ _ w1) as [[[]|e] w2] eqn:Hu; [|discriminate].
  injection Hok as <-.
  apply get_all_values_ok in Hg as (Hrows & Hs1 & Hc1 & Hcalls1 & _).
  apply update_ok in Hu as (Hupd & _ & Hcalls2 & _).
  destruct (strftime_formats (clock w) Hclock) as [Hd Ht].
  unfold task_row in *. rewrite Hd, Ht in *.
  exists rows. split; [exact Hrows|]. split.
  - simpl. rewrite Hcalls2, Hcalls1, <- app_assoc. reflexivity.
  - simpl. rewrite <- Hs1. exact Hupd.
Qed.

(** C4. [add_task] returns a boolean in every world and never raises.
    On a manager without a sheet it returns [False] and leaves the world
    as it was: no request, no write. An exception out of
    [get_all_values] or out of [update] is caught, logged as an error
    and turned into [False]. *)
Theorem add_task_never_raises self task status w :
  (exists b w', add_task self task status w = (inl b, w'))
  /\ (sheet self = None -> add_task self task status w = (inl false, w))
  /\ (forall ws e w1,
        sheet self = Some ws ->
        get_all_values ws w = (inr e, w1) ->
        add_task self task status w
        = (inl false,
           add_log ERROR
             (u "❌ Error adding task to Google Sheet: " ++ exn_msg e) w1))
  /\ (forall ws rows w1 e w2,
        sheet self = Some ws ->
        get_all_values ws w = (inl rows, w1) ->
        update ws (row_range (List.length rows + 1))
               [task_row (clock w) task status] w1 = (inr e, w2) ->
        add_task self task status w
        = (inl false,
           add_log ERROR
             (u "❌ Error adding task to Google Sheet: " ++ exn_msg e) w2)).
Proof.
  split; [|split; [|split]].
  - destruct (sheet self) as [ws|] eqn:Hs.
    + rewrite (add_task_connected self task status w Hs).
      destruct (get_all_values ws w) as [[rows|e] w1]; [|eauto].
      destruct (update ws _ _ w1) as [[[]|e] w2]; eauto.
    + rewrite (add_task_disconnected self task status w Hs). eauto.
  - apply add_task_disconnected.
  - intros ws e w1 Hs Hg.
    now rewrite (add_task_connected self task status w Hs), Hg.
  - intros ws rows w1 e w2 Hs Hg Hu.
    now rewrite (add_task_connected self task status w Hs), Hg, Hu.
Qed.

End Properties.

End AddTask.

(* ================================================================== *)
(** * Properties of [setup_headers]                                    *)
(* ================================================================== *)

Module SetupHeaders.

Import GoogleSheetsManager SheetFacts.

Section Properties.
Variable St : Type.
Context `{SheetService St}.

Lemma short_iff headers : short headers = true <-> (List.length headers < 4)%nat.
Proof.
  unfold short. destruct headers as [|h headers]; simpl.
  - split; [lia | reflexivity].
  - destruct headers as [|? [|? [|? ?]]]; simpl; split;
      try reflexivity; try lia; try discriminate.
Qed.

(** [setup_headers], request by request. *)
Lemma setup_headers_unfold ws w :
  setup_headers ws w
  = match row_values ws 1 w with
    | (inl headers, w1) =>
        if short headers then
          match update ws (u "A1:E1") [header_row] w1 with
          | (inl _, w2) =>
              (inl tt, add_log INFO (u "📝 Headers set up in Google Sheet") w2)
          | (inr e, w2) =>
              (inl tt,
               add_log ERROR (u "❌ Error setting up headers: " ++ exn_msg e) w2)
          end
        else (inl tt, w1)
    | (inr e, w1) =>
        (inl tt,
         add_log ERROR (u "❌ Error setting up headers: " ++ exn_msg e) w1)
    end.
Proof.
  unfold setup_headers, try_except. unfold bind at 1.
  destruct (row_values ws 1 w) as [[headers|e] w1]; [|reflexivity].
  fold (short headers). destruct (short headers); [|reflexivity].
  unfold bind. destruct (update ws _ _ w1) as [[[]|e] w2]; reflexivity.
Qed.

(** One call: it returns, it adds the read and at most the one write of
    the header to the requests, and it changes the sheet only by that
    write, made when the first row read shorter than four columns. *)
Lemma setup_headers_once ws w r w' :
  setup_headers ws w = (r, w') ->
  r = inl tt
  /\ (faults w = [] -> faults w' = [])
  /\ ((store w' = store w
       /\ (faults w = [] ->
           forall v s', svc_row_values 1 (store w) = inl v ->
                        (List.length v < 4)%nat ->
                        svc_update (u "A1:E1") [header_row] (store w) <> inl s'))
      \/ (exists v, svc_row_values 1 (store w) = inl v
                    /\ (List.length v < 4)%nat
                    /\ svc_update (u "A1:E1") [header_row] (store w)
                       = inl (store w')))
  /\ (calls w' = calls w ++ [RowValues 1]
      \/ (exists v, svc_row_values 1 (store w) = inl v
                    /\ (List.length v < 4)%nat
                    /\ calls w'
                       = calls w ++ [RowValues 1;
                                     Update (u "A1:E1") [header_row]])).
Proof.
  rewrite setup_headers_unfold.
  destruct (row_values ws 1 w) as [[headers|e] w1] eqn:Hr.
  - apply row_values_ok in Hr as (Hv & Hs1 & Hf1 & Hc1).
    destruct (short headers) eqn:Hshort.
    + apply short_iff in Hshort.
      destruct (update ws _ _ w1) as [[[]|e] w2] eqn:Hu.
      * apply update_ok in Hu as (Hupd & Hf2 & Hc2 & _).
        intros Heq. injection Heq as <- <-. simpl.
        rewrite Hs1 in Hupd. split; [reflexivity|]. split.
        { intros Hf. now rewrite Hf2, Hf1, Hf. }
        split; [right; eauto|]. right. exists headers.
        rewrite Hc2, Hc1, <- app_assoc. auto.
      * intros Heq. injection Heq as <- <-. simpl.
        pose proof Hu as Hu'. unfold update in Hu'.
        apply request_raise_store in Hu as [Hs2 Hc2].
        split; [reflexivity|]. split.
        { intros Hf. apply request_inv in Hu'
            as [(e' & fs & Hf' & _ & _) | [(a & s' & _ & Hx & _)
                                          | (e' & _ & _ & ->)]].
          - rewrite Hf1, Hf in Hf'. discriminate.
          - discriminate.
          - simpl. now rewrite Hf1, Hf. }
        split.
        { left. split; [now rewrite Hs2|]. intros Hf v s' Hv' Hlen Hupd.
          apply request_inv in Hu'
            as [(e' & fs & Hf' & _ & _) | [(a & s'' & _ & Hx & _)
                                          | (e' & Hx & _ & _)]].
          - rewrite Hf1, Hf in Hf'. discriminate.
          - discriminate.
          - rewrite Hs1, Hupd in Hx. discriminate. }
        right. exists headers. rewrite Hc2, Hc1, <- app_assoc. auto.
    + intros Heq. injection Heq as <- <-.
      split; [reflexivity|]. split.
      { intros Hf. now rewrite Hf1, Hf. }
      split; [|now left]. left. split; [exact Hs1|].
      intros _ v s' Hv' Hlen. rewrite Hv in Hv'. injection Hv' as <-.
      apply short_iff in Hlen. congruence.
  - intros Heq. injection Heq as <- <-. simpl.
    pose proof Hr as Hr'. unfold row_values in Hr'.
    apply request_raise_store in Hr as [Hs1 Hc1].
    split; [reflexivity|]. split.
    { intros Hf. apply request_inv in Hr'
        as [(e' & fs & Hf' & _ & _) | [(a & s' & _ & Hx & _)
                                      | (e' & _ & _ & ->)]].
      - rewrite Hf in Hf'. discriminate.
      - discriminate.
      - simpl. now rewrite Hf. }
    split; [|now left]. left. split; [exact Hs1|].
    intros Hf v s' Hv' Hlen _.
    apply request_inv in Hr'
      as [(e' & fs & Hf' & _ & _) | [(a & s'' & _ & Hx & _)
                                    | (e' & Hx & _ & _)]].
    + rewrite Hf in Hf'. discriminate.
    + discriminate.
    + unfold keep in Hx. rewrite Hv' in Hx. discriminate.
Qed.

(** C5. Two calls of [setup_headers] in succession, on a service that
    reads back the header once written, under any schedule of faults:
    neither call raises; the first changes the sheet only by writing the
    header row into [A1:E1], and only when the first row read shorter
    than four columns; at most one of the two calls writes; a first row
    of four columns or more is left as it is by both, which then only
    read; and when no fault is scheduled the second call leaves the sheet
    as the first call left it. *)
Theorem setup_headers_idempotent ws w r1 w1 r2 w2
  (Hback : @reads_back_header St _)
  (H1 : setup_headers ws w = (r1, w1))
  (H2 : setup_headers ws w1 = (r2, w2)) :
  (r1 = inl tt /\ r2 = inl tt)
  /\ (store w1 = store w
      \/ exists v, svc_row_values 1 (store w) = inl v
                   /\ (List.length v < 4)%nat
                   /\ svc_update (u "A1:E1") [header_row] (store w)
                      = inl (store w1))
  /\ (store w1 = store w \/ store w2 = store w1)
  /\ (has_header (store w) ->
      store w1 = store w /\ store w2 = store w
      /\ calls w2 = calls w ++ [RowValues 1; RowValues 1])
  /\ (faults w = [] -> store w2 = store w1).
Proof.
  apply setup_headers_once in H1 as (Hr1 & Hf1 & Hs1 & Hc1).
  apply setup_headers_once in H2 as (Hr2 & Hf2 & Hs2 & Hc2).
  assert (Hvalid : forall w0 w0',
             has_header (store w0) ->
             (store w0' = store w0 /\ (faults w0 = [] ->
                forall v s', svc_row_values 1 (store w0) = inl v ->
                  (List.length v < 4)%nat ->
                  svc_update (u "A1:E1") [header_row] (store w0) <> inl s'))
             \/ (exists v, svc_row_values 1 (store w0) = inl v
                           /\ (List.length v < 4)%nat
                           /\ svc_update (u "A1:E1") [header_row] (store w0)
                              = inl (store w0')) ->
             store w0' = store w0).
  { intros w0 w0' (v & Hv & Hlen) [[Hs _] | (v' & Hv' & Hlen' & _)];
      [exact Hs|]. rewrite Hv in Hv'. injection Hv' as <-. lia. }
  assert (Hwritten : forall v,
             svc_row_values 1 (store w) = inl v -> (List.length v < 4)%nat ->
             svc_update (u "A1:E1") [header_row] (store w) = inl (store w1) ->
             store w2 = store w1).
  { intros v Hv Hlen Hupd. apply (Hvalid w1 w2); [|exact Hs2].
    exists header_row. split; [exact (Hback _ _ _ Hv Hlen Hupd)|].
    simpl. lia. }
  split; [now split|]. split; [|split; [|split]].
  - destruct Hs1 as [[Hs _] | Hs]; [now left | now right].
  - destruct Hs1 as [[Hs _] | (v & Hv & Hlen & Hupd)]; [now left|].
    right. exact (Hwritten v Hv Hlen Hupd).
  - intros Hh. assert (Hsame : store w1 = store w) by exact (Hvalid w w1 Hh Hs1).
    assert (Hh1 : has_header (store w1)) by now rewrite Hsame.
    split; [exact Hsame|]. split.
    + rewrite <- Hsame. exact (Hvalid w1 w2 Hh1 Hs2).
    + destruct Hh as (v & Hv & Hlen). destruct Hh1 as (v1 & Hv1 & Hlen1).
      destruct Hc1 as [Hc1 | (v' & Hv' & Hlen' & _)];
        [|rewrite Hv in Hv'; injection Hv' as <-; lia].
      destruct Hc2 as [Hc2 | (v' & Hv' & Hlen' & _)];
        [|rewrite Hv1 in Hv'; injection Hv' as <-; lia].
      rewrite Hc2, Hc1, <- app_assoc. reflexivity.
  - intros Hf. destruct Hs1 as [[Hs Hno] | (v & Hv & Hlen & Hupd)];
      [|exact (Hwritten v Hv Hlen Hupd)].
    destruct Hs2 as [[Hs' _] | (v & Hv & Hlen & Hupd)]; [exact Hs'|].
    rewrite Hs in Hv, Hupd. now destruct (Hno Hf v (store w2) Hv Hlen).
Qed.

End Properties.

End SetupHeaders.

(* ================================================================== *)
(** * Properties of [handle_message]                                   *)
(* ================================================================== *)

Module Handler.

Import GoogleSheetsManager Bot PyFacts.

Section Properties.
Variable St : Type.
Context `{SheetService St} `{UnicodeDB}.


(** When the connection cannot be opened the manager is left without a
    sheet. *)
Lemma setup_sheet_fails (open_sheet : Py St Worksheet) w e w1 :
  open_sheet w = (inr e, w1) ->
  fst (setup_sheet open_sheet w) = inl (mk None).
Proof.
  intros Ho. unfold setup_sheet, try_except. unfold bind at 1.
  now rewrite Ho.
Qed.


End Properties.

End Handler.

(* ================================================================== *)
(** * The code on the sheet held in memory                             *)
(* ================================================================== *)

Module Examples.

Import GoogleSheetsManager Bot MemSheet.

Lemma drop_trailing_empty_skipn n r :
  (List.length (drop_trailing_empty r) <= n)%nat ->
  drop_trailing_empty (skipn n r) = [].
Proof.
  revert r. induction n as [|n IH]; intros r Hn.
  - simpl. destruct (drop_trailing_empty r); [reflexivity | simpl in Hn; lia].
  - destruct r as [|c r]; [reflexivity|]. simpl. apply IH.
    simpl in Hn. destruct (drop_trailing_empty r) as [|d r'].
    + simpl. lia.
    + simpl in Hn. simpl. lia.
Qed.

Lemma drop_trailing_empty_app h x :
  drop_trailing_empty x = [] ->
  drop_trailing_empty (h ++ x) = drop_trailing_empty h.
Proof.
  intros Hx. induction h as [|c h IH]; simpl; [exact Hx|]. now rewrite IH.
Qed.

(** ** Row numbers in ranges

    [str_of_nat] writes the decimal digits that [read_nat] reads back. *)

Lemma str_of_nat_go_app fuel n acc :
  str_of_nat_go fuel n acc = str_of_nat_go fuel n [] ++ acc.
Proof.
  revert n acc. induction fuel as [|fuel IH]; intros n acc; [reflexivity|].
  simpl. destruct (n <? 10)%nat; [reflexivity|].
  rewrite (IH _ (_ :: acc)), (IH _ [_]), <- app_assoc. reflexivity.
Qed.

Lemma read_nat_digit a d rest :
  (d < 10)%nat -> read_nat a (digit d :: rest) = read_nat (10 * a + d) rest.
Proof.
  intros Hd.
  change (read_nat a (digit d :: rest))
    with (if isdigit (digit d)
          then read_nat (10 * a + Z.to_nat (digit d - 0x30)) rest
          else (a, digit d :: rest)).
  replace (isdigit (digit d)) with true
    by (symmetry; unfold isdigit, digit; apply andb_true_iff;
        split; apply Z.leb_le; lia).
  replace (Z.to_nat (digit d - 0x30)) with d by (unfold digit; lia).
  reflexivity.
Qed.

Lemma read_nat_str_of_nat_go fuel n :
  (n < fuel)%nat ->
  exists k, forall a rest,
    read_nat a (str_of_nat_go fuel n [] ++ rest)
    = read_nat (a * 10 ^ k + n) rest.
Proof.
  revert n. induction fuel as [|fuel IH]; intros n Hn; [lia|].
  rewrite TimeFacts.str_of_nat_go_step. destruct (n <? 10)%nat eqn:Hlt.
  - apply Nat.ltb_lt in Hlt. exists 1%nat. intros a rest. cbn [app].
    rewrite Nat.mod_small by exact Hlt.
    rewrite read_nat_digit by exact Hlt. f_equal. simpl. lia.
  - apply Nat.ltb_ge in Hlt.
    assert (Hdiv : (n / 10 < fuel)%nat).
    { apply Nat.Div0.div_lt_upper_bound. lia. }
    destruct (IH _ Hdiv) as [k Hk]. exists (S k). intros a rest.
    rewrite str_of_nat_go_app, <- app_assoc. cbn [app].
    rewrite Hk, read_nat_digit by (apply Nat.mod_upper_bound; lia).
    f_equal. rewrite Nat.pow_succ_r'.
    pose proof (Nat.div_mod_eq n 10). lia.
Qed.

Lemma read_nat_str_of_nat n rest :
  read_nat 0 (str_of_nat n ++ rest) = read_nat n rest.
Proof.
  destruct (@read_nat_str_of_nat_go (S n) n) as [k Hk]; [lia|].
  unfold str_of_nat. now rewrite Hk.
Qed.

(** The range that [add_task] builds for row [n] names row [n]. *)
Lemma range_row_row_range n :
  (1 <= n)%nat -> range_row (row_range n) = Some n.
Proof.
  intros Hn. unfold row_range.
  change (u "A" ++ str_of_nat n ++ u ":E" ++ str_of_nat n)
    with (0x41 :: (str_of_nat n ++ 0x3A :: 0x45 :: str_of_nat n)).
  unfold range_row. rewrite read_nat_str_of_nat.
  change (read_nat n (0x3A :: 0x45 :: str_of_nat n))
    with (n, 0x3A :: 0x45 :: str_of_nat n).
  cbv iota beta.
  rewrite <- (app_nil_r (str_of_nat n)) at 1.
  rewrite read_nat_str_of_nat. simpl read_nat. cbv iota beta.
  rewrite Nat.eqb_refl. apply Nat.leb_le in Hn. rewrite Hn. reflexivity.
Qed.

Lemma set_row_end row (g : grid) :
  set_row (S (List.length g)) row g = g ++ [row].
Proof.
  induction g as [|r g IH]; [reflexivity|].
  change (set_row (S (List.length (r :: g))) row (r :: g))
    with (r :: set_row (S (List.length g)) row g).
  now rewrite IH.
Qed.

Lemma set_row_reported row (g : grid) :
  set_row (List.length (reported_rows g) + 1) row g = reported_rows g ++ [row].
Proof.
  rewrite Nat.add_1_r. destruct g as [|r g]; [reflexivity|].
  apply (set_row_end row (r :: g)).
Qed.

Lemma get_row_past_end (g : grid) :
  get_row (List.length (reported_rows g) + 1) g = [].
Proof.
  unfold get_row. rewrite Nat.add_1_r. cbn [Nat.sub]. rewrite Nat.sub_0_r.
  apply nth_overflow. destruct g; simpl; lia.
Qed.

(** On the sheet in memory, with no fault scheduled, [add_task] on a
    connected manager returns [True] and puts the task in a new row
    below the rows that [get_all_values] reports: below the rows there
    are, and in row 2 of a blank sheet. *)
Lemma mem_add_task_appends (g : grid) (clk : datetime) (task status : str) :
  exists w',
    add_task connected task status (world g clk) = (inl true, w')
    /\ store w' = reported_rows g ++ [task_row clk task status].
Proof.
  rewrite (@SheetFacts.add_task_connected grid service connected sheet1
             task status (world g clk) eq_refl).
  unfold get_all_values, update, request.
  cbn [world add_call set_faults set_store store faults clock calls logs
       outbox keep svc_get_all_values svc_update service tl add_log].
  unfold mem_update. rewrite range_row_row_range by lia.
  eexists. split; [reflexivity|].
  cbn [add_call set_faults set_store store faults clock calls logs outbox
       add_log].
  rewrite get_row_past_end. cbn [List.length skipn]. rewrite app_nil_r.
  apply set_row_reported.
Qed.

(** The sheet in memory reads back the header once written. *)
Lemma mem_reads_back_header : @reads_back_header grid service.
Proof.
  intros g v g' Hv Hlen Hupd. simpl in *. injection Hv as <-.
  unfold mem_update in Hupd.
  change (range_row (u "A1:E1")) with (Some 1%nat) in Hupd.
  injection Hupd as <-. f_equal.
  change (drop_trailing_empty (header_row ++ skipn 5 (get_row 1 g))
          = header_row).
  rewrite drop_trailing_empty_app; [reflexivity|].
  apply drop_trailing_empty_skipn. lia.
Qed.

(** C3 on a sheet of a header and one task: the next task is written to
    row 3. *)
Lemma add_task_writes_next_row_witness :
  let w := world two_rows now in
  let w' := snd (add_task connected (u "the sales report") Done w) in
  calls w'
  = [GetAllValues;
     Update (u "A3:E3")
            [[u "2026-11-04"; u "09:05"; u "the sales report"; Done; []]]]
  /\ store w'
     = two_rows
       ++ [[u "2026-11-04"; u "09:05"; u "the sales report"; Done; []]].
Proof.
  intros w w'.
  destruct (@AddTask.add_task_writes_next_row grid service connected sheet1
              (u "the sales report") Done w w')
    as (rows & Hrows & Hcalls & Hupd).
  - reflexivity.
  - vm_compute. reflexivity.
  - vm_compute. reflexivity.
  - injection Hrows as <-. split.
    + rewrite Hcalls. vm_compute. reflexivity.
    + vm_compute. reflexivity.
Defined.

(** C4 on a manager without a sheet, and on a connected one whose
    [update] meets a fault. *)
Lemma add_task_never_raises_witness :
  add_task (mk None) (u "the sales report") Done (world two_rows now)
  = (inl false, world two_rows now)
  /\ exists w',
       add_task connected (u "the sales report") Done
                (faulty_world two_rows [None; Some (Exception (u "APIError"))] now)
       = (inl false, w')
       /\ store w' = two_rows.
Proof.
  split.
  - apply (proj1 (proj2 (@AddTask.add_task_never_raises grid service (mk None)
             (u "the sales report") Done (world two_rows now)))).
    reflexivity.
  - eexists. split.
    + eapply (proj2 (proj2 (proj2 (@AddTask.add_task_never_raises grid service
                connected (u "the sales report") Done
                (faulty_world two_rows [None; Some (Exception (u "APIError"))]
                              now))))).
      * reflexivity.
      * vm_compute. reflexivity.
      * vm_compute. reflexivity.
    + reflexivity.
Defined.

(** C5 on an empty sheet: the first call writes the header, the second
    leaves it. *)
Lemma setup_headers_idempotent_witness :
  let w1 := snd (setup_headers sheet1 (world [] now)) in
  let w2 := snd (setup_headers sheet1 w1) in
  store w1 = [header_row] /\ store w2 = store w1.
Proof.
  intros w1 w2.
  destruct (@SetupHeaders.setup_headers_idempotent grid service sheet1
              (world [] now) (inl tt) w1 (inl tt) w2)
    as (_ & _ & _ & _ & Hsame).
  - exact mem_reads_back_header.
  - vm_compute. reflexivity.
  - vm_compute. reflexivity.
  - split; [vm_compute; reflexivity | now apply Hsame].
Defined.


End Examples.

(* ================================================================== *)
(** * The matcher finds only matches                                   *)
(* ================================================================== *)

Module ReSound.

Import ReSem ReFacts.

Section Sound.
Context `{UnicodeDB}.

Lemma run_star_sound k s :
  forall prev (R : Type) (cont : option Z -> str -> option R) x,
    run_star k prev s cont = Some x ->
    exists prev' s', matches (Star k) prev s prev' s' /\ cont prev' s' = Some x.
Proof.
  induction s as [|c s IH]; intros prev R cont x; simpl.
  - intros Hx. exists prev, []. split; [constructor | exact Hx].
  - destruct (in_class k c) eqn:Hk.
    + destruct (run_star k (Some c) s cont) as [y|] eqn:Hr.
      * intros Hx. injection Hx as ->.
        apply IH in Hr as (prev' & s' & Hm & Hc).
        exists prev', s'. split; [now apply MStarCons | exact Hc].
      * intros Hx. exists prev, (c :: s). split; [apply MStarNil | exact Hx].
    + intros Hx. exists prev, (c :: s). split; [apply MStarNil | exact Hx].
Qed.

(** What the matcher returns is what the continuation returns after
    some match of the pattern. *)
Lemma run_sound r :
  forall prev s (R : Type) (cont : option Z -> str -> option R) x,
    run r prev s cont = Some x ->
    exists prev' s', matches r prev s prev' s' /\ cont prev' s' = Some x.
Proof.
  induction r as [ | p | | r1 IH1 r2 IH2 | r1 IH1 r2 IH2 | r IH | k | k | r IH ];
    intros prev s R cont x; simpl.
  - intros Hx. exists prev, s. split; [constructor | exact Hx].
  - destruct s as [|c s]; [discriminate|].
    destruct (lit_match p c) eqn:Hp; [|discriminate].
    intros Hx. exists (Some c), s. split; [now constructor | exact Hx].
  - destruct (at_boundary prev s) eqn:Hb; [|discriminate].
    intros Hx. exists prev, s. split; [now constructor | exact Hx].
  - intros Hx. apply IH1 in Hx as (prev1 & s1 & Hm1 & Hx).
    apply IH2 in Hx as (prev2 & s2 & Hm2 & Hx).
    exists prev2, s2. split; [now apply MSeq with prev1 s1 | exact Hx].
  - destruct (run r1 prev s cont) as [y|] eqn:Hr.
    + intros Hx. injection Hx as ->.
      apply IH1 in Hr as (prev' & s' & Hm & Hx).
      exists prev', s'. split; [now apply MAltL | exact Hx].
    + intros Hx. apply IH2 in Hx as (prev' & s' & Hm & Hx).
      exists prev', s'. split; [now apply MAltR | exact Hx].
  - destruct (run r prev s cont) as [y|] eqn:Hr.
    + intros Hx. injection Hx as ->.
      apply IH in Hr as (prev' & s' & Hm & Hx).
      exists prev', s'. split; [now apply MOptSome | exact Hx].
    + intros Hx. exists prev, s. split; [apply MOptNone | exact Hx].
  - apply run_star_sound.
  - destruct s as [|c s]; [discriminate|].
    destruct (in_class k c) eqn:Hk; [|discriminate].
    intros Hx. apply run_star_sound in Hx as (prev' & s' & Hm & Hx).
    exists prev', s'. split; [now apply MPlus | exact Hx].
  - intros Hx. apply IH in Hx as (prev' & s' & Hm & Hx).
    exists prev', s'. split; [now apply MGrp | exact Hx].
Qed.

Lemma match_len_sound r prev s k :
  match_len r prev s = Some k ->
  exists prev' s', matches r prev s prev' s' /\ k = (len s - len s')%nat.
Proof.
  unfold match_len. intros Hk.
  apply run_sound in Hk as (prev' & s' & Hm & Hk).
  injection Hk as <-. now exists prev', s'.
Qed.

(** A position starts a match for the matcher exactly when the pattern
    has a match there. *)
Lemma match_len_iff r prev s :
  match_len r prev s <> None <-> exists prev' s', matches r prev s prev' s'.
Proof.
  split.
  - destruct (match_len r prev s) as [k|] eqn:Hk; [|contradiction].
    intros _. apply match_len_sound in Hk as (prev' & s' & Hm & _). eauto.
  - intros (prev' & s' & Hm). now apply match_len_complete with prev' s'.
Qed.

(** A match leaves a suffix of what it was given. *)
Lemma matches_shorter r prev s prev' s' :
  matches r prev s prev' s' -> (len s' <= len s)%nat.
Proof.
  unfold len. induction 1; simpl in *; lia.
Qed.

(** ** The patterns, constructor by constructor *)

Lemma matches_bnd prev s prev' s' :
  matches Bnd prev s prev' s' <->
  at_boundary prev s = true /\ prev' = prev /\ s' = s.
Proof.
  split.
  - inversion 1; subst. auto.
  - intros (Hb & -> & ->). now constructor.
Qed.

Lemma matches_seq r1 r2 prev s prev' s' :
  matches (Seq r1 r2) prev s prev' s' <->
  exists prev1 s1, matches r1 prev s prev1 s1 /\ matches r2 prev1 s1 prev' s'.
Proof.
  split.
  - inversion 1; subst. eauto.
  - intros (prev1 & s1 & H1 & H2). now apply MSeq with prev1 s1.
Qed.

Lemma matches_alt r1 r2 prev s prev' s' :
  matches (Alt r1 r2) prev s prev' s' <->
  matches r1 prev s prev' s' \/ matches r2 prev s prev' s'.
Proof.
  split.
  - inversion 1; subst; auto.
  - intros [Hm | Hm]; [now apply MAltL | now apply MAltR].
Qed.

Lemma matches_opt r prev s prev' s' :
  matches (Opt r) prev s prev' s' <->
  matches r prev s prev' s' \/ (prev' = prev /\ s' = s).
Proof.
  split.
  - inversion 1; subst; auto.
  - intros [Hm | [-> ->]]; [now apply MOptSome | apply MOptNone].
Qed.

Lemma matches_grp r prev s prev' s' :
  matches (Grp r) prev s prev' s' <-> matches r prev s prev' s'.
Proof.
  split.
  - inversion 1; subst; auto.
  - apply MGrp.
Qed.

Lemma matches_lit p prev s prev' s' :
  matches (Lit p) prev s prev' s' <->
  exists c, s = c :: s' /\ prev' = Some c /\ lit_match p c = true.
Proof.
  split.
  - inversion 1; subst. eauto.
  - intros (c & -> & -> & Hp). now constructor.
Qed.

Lemma matches_plus_head k prev s prev' s' :
  matches (Plus k) prev s prev' s' ->
  exists c s1, s = c :: s1 /\ in_class k c = true.
Proof. inversion 1; subst. eauto. Qed.

End Sound.

End ReSound.

(* ================================================================== *)
(** * The pattern lists and the scan agree                             *)
(* ================================================================== *)

Module ScanFacts.

Import ReSem ReFacts ReSound Scan Words.
Local Open Scope re_scope.

Ltac zbool :=
  repeat match goal with
         | Hb : _ && _ = true |- _ => apply andb_true_iff in Hb; destruct Hb
         | Hb : _ || _ = true |- _ => apply orb_true_iff in Hb; destruct Hb
         | Hb : (_ <=? _) = true |- _ => apply Z.leb_le in Hb
         | Hb : (_ <? _) = true |- _ => apply Z.ltb_lt in Hb
         | Hb : (_ =? _) = true |- _ => apply Z.eqb_eq in Hb
         | Hb : false = true |- _ => discriminate Hb
         end.

Ltac zcases :=
  repeat (match goal with
          | |- context [?a <=? ?b] => destruct (Z.leb_spec a b)
          | |- context [?a <? ?b] => destruct (Z.ltb_spec a b)
          | |- context [?a =? ?b] => destruct (Z.eqb_spec a b)
          end; try (exfalso; lia); cbn [andb orb negb]);
  try reflexivity; try (exfalso; lia).

Section Characters.
Context `{UnicodeDB}.

Lemma space_not_word c : isspace c = true -> is_word c = false.
Proof.
  intros Hs. unfold is_word, isalnum. rewrite Hs. cbn [orb].
  unfold isspace in Hs. unfold ascii_isalnum. zbool; subst; zcases.
Qed.

Lemma is_symbol_cases c :
  is_symbol c = true ->
  c = 0x2705 \/ c = 0x2713 \/ c = 0x2611 \/ c = 0xFE0F
  \/ c = 0x1F504 \/ c = 0x23F3 \/ c = 0x1F914.
Proof.
  unfold is_symbol, source_symbols. cbn [existsb]. intros Hc.
  zbool; subst; tauto.
Qed.

Lemma symbol_not_word c : is_symbol c = true -> is_word c = false.
Proof.
  intros Hs. unfold is_word, isalnum. rewrite Hs, orb_true_r.
  apply is_symbol_cases in Hs.
  destruct Hs as [-> | [-> | [-> | [-> | [-> | [-> | ->]]]]]]; reflexivity.
Qed.

(** Against a symbol the comparison under [IGNORECASE] is equality. *)
Lemma lit_match_symbol p c : is_symbol p = true -> lit_match p c = (c =? p).
Proof.
  intros Hs. apply is_symbol_cases in Hs.
  unfold lit_match, unicode_tolower, equivalences.
  destruct (Z.leb_spec 65 c), (Z.leb_spec c 90), (Z.eqb_spec c 304),
    (Z.eqb_spec c 8490); try (exfalso; lia); cbn [andb];
    destruct Hs as [-> | [-> | [-> | [-> | [-> | [-> | ->]]]]]];
    cbn [Z.leb Z.eqb Z.compare Pos.compare Pos.compare_cont andb orb
         existsb Z.add Pos.eqb]; zcases.
Qed.

(** Against a lower-case letter other than i, k and s it is equality up
    to ASCII case. *)
Lemma lit_match_letter p c :
  is_lower p = true -> p <> 0x69 -> p <> 0x6B -> p <> 0x73 ->
  lit_match p c = cased p c.
Proof.
  unfold is_lower, lit_match, unicode_tolower, equivalences, cased, is_lower.
  intros Hp Hi Hk Hs. zbool.
  replace ((65 <=? p) && (p <=? 90)) with false by (symmetry; zcases).
  replace (p =? 304) with false by (symmetry; zcases).
  replace (p =? 8490) with false by (symmetry; zcases).
  replace (p =? 105) with false by (symmetry; zcases).
  replace (p =? 115) with false by (symmetry; zcases).
  replace ((97 <=? p) && (p <=? 122)) with true by (symmetry; zcases).
  cbn [existsb andb orb]. rewrite orb_false_r.
  destruct (Z.leb_spec 65 c), (Z.leb_spec c 90), (Z.eqb_spec c 304),
    (Z.eqb_spec c 8490); try (exfalso; lia); cbn [andb]; zcases.
Qed.

End Characters.

Section Patterns.
Context `{UnicodeDB}.

(** ** Runs of literals *)

Lemma matches_lits kw : forall prev s prev' s',
  matches (lits kw) prev s prev' s' <-> ci_prefix kw prev s = Some (prev', s').
Proof.
  induction kw as [|p kw IH]; intros prev s prev' s'.
  - simpl. split.
    + inversion 1; subst. reflexivity.
    + intros Hp. injection Hp as <- <-. constructor.
  - destruct kw as [|q kw].
    + simpl. rewrite matches_lit. split.
      * intros (c & -> & -> & Hp). now rewrite Hp.
      * destruct s as [|c s]; [discriminate|].
        destruct (lit_match p c) eqn:Hp; [|discriminate].
        intros Heq. injection Heq as <- <-. eauto.
    + change (lits (p :: q :: kw)) with (Lit p >> lits (q :: kw)).
      rewrite matches_seq.
      change (ci_prefix (p :: q :: kw) prev s)
        with (match s with
              | c :: s0 =>
                  if lit_match p c then ci_prefix (q :: kw) (Some c) s0
                  else None
              | [] => None
              end).
      split.
      * intros (prev1 & s1 & H1 & H2). apply matches_lit in H1
          as (c & -> & -> & Hp). rewrite Hp. now apply IH.
      * destruct s as [|c s]; [discriminate|].
        destruct (lit_match p c) eqn:Hp; [|discriminate].
        intros Heq. exists (Some c), s. split; [now constructor|].
        now apply IH.
Qed.

Lemma ci_prefix_app k1 k2 prev s :
  ci_prefix (k1 ++ k2) prev s
  = match ci_prefix k1 prev s with
    | Some (prev1, s1) => ci_prefix k2 prev1 s1
    | None => None
    end.
Proof.
  revert prev s. induction k1 as [|p k1 IH]; intros prev s; [reflexivity|].
  simpl. destruct s as [|c s]; [reflexivity|].
  destruct (lit_match p c); [apply IH | reflexivity].
Qed.

(** [kw d?] matches [kw] and [kw] followed by [d], and nothing else. *)
Lemma matches_opt_kw kw d prev s prev' s' :
  matches (lits kw >> Opt (Lit d)) prev s prev' s' <->
  ci_prefix kw prev s = Some (prev', s')
  \/ ci_prefix (kw ++ [d]) prev s = Some (prev', s').
Proof.
  rewrite matches_seq, ci_prefix_app. split.
  - intros (prev1 & s1 & H1 & H2). apply matches_lits in H1.
    rewrite H1. apply matches_opt in H2 as [H2 | [-> ->]]; [|now left].
    right. apply (matches_lits [d]). exact H2.
  - intros [Hk | Hk].
    + exists prev', s'. split; [now apply matches_lits | apply MOptNone].
    + destruct (ci_prefix kw prev s) as [[prev1 s1]|] eqn:H1; [|discriminate].
      exists prev1, s1. split; [now apply matches_lits|].
      apply MOptSome. now apply (matches_lits [d]).
Qed.

(** ** A keyword between two boundaries *)

Lemma word_ci_at_iff kw prev s :
  word_ci_at kw prev s = true <->
  exists prev' s', at_boundary prev s = true
                   /\ ci_prefix kw prev s = Some (prev', s')
                   /\ at_boundary prev' s' = true.
Proof.
  unfold word_ci_at. split.
  - intros Hw. apply andb_true_iff in Hw as [Hb Hw].
    destruct (ci_prefix kw prev s) as [[prev' s']|]; [|discriminate]. eauto.
  - intros (prev' & s' & Hb & Hp & Hb'). now rewrite Hb, Hp.
Qed.

(** [\b(alternatives)\b], for alternatives that match the keywords
    [kws] and nothing else. *)
Lemma bounded_alternatives alts kws prev s :
  (forall prev s prev' s',
      matches alts prev s prev' s' <->
      exists kw, In kw kws /\ ci_prefix kw prev s = Some (prev', s')) ->
  match_len (Bnd >> Grp alts >> Bnd) prev s <> None <->
  existsb (fun kw => word_ci_at kw prev s) kws = true.
Proof.
  intros Halts. rewrite match_len_iff, existsb_exists. split.
  - intros (prev' & s' & Hm).
    apply matches_seq in Hm as (prev0 & s0 & Hb & Hm).
    apply matches_bnd in Hb as (Hb & -> & ->).
    apply matches_seq in Hm as (prev1 & s1 & Hm & Hb').
    apply matches_grp, Halts in Hm as (kw & Hin & Hp).
    apply matches_bnd in Hb' as (Hb' & -> & ->).
    exists kw. split; [exact Hin|]. apply word_ci_at_iff. eauto.
  - intros (kw & Hin & Hw). apply word_ci_at_iff in Hw
      as (prev' & s' & Hb & Hp & Hb').
    exists prev', s'. apply matches_seq. exists prev, s.
    split; [now apply matches_bnd|]. apply matches_seq. exists prev', s'.
    split; [|now apply matches_bnd]. apply matches_grp, Halts. eauto.
Qed.

Lemma done_alternatives_iff prev s prev' s' :
  matches (completed_opt <|> finished_opt <|> done) prev s prev' s' <->
  exists kw, In kw done_keywords /\ ci_prefix kw prev s = Some (prev', s').
Proof.
  unfold completed_opt, finished_opt, done.
  rewrite !matches_alt, !matches_opt_kw, matches_lits.
  unfold done_keywords. split.
  - intros [[Hk | Hk] | [[Hk | Hk] | Hk]]; eexists; (split; [|exact Hk]);
      cbn [In]; tauto.
  - intros (kw & Hin & Hk). cbn [In] in Hin.
    destruct Hin as [<- | [<- | [<- | [<- | [<- | []]]]]]; tauto.
Qed.

Lemma progress_alternatives_iff prev s prev' s' :
  matches (lits (u "working on") <|> lits (u "started") <|> lits (u "begun")
           <|> lits (u "in progress")) prev s prev' s' <->
  exists kw, In kw progress_keywords /\ ci_prefix kw prev s = Some (prev', s').
Proof.
  rewrite !matches_alt, !matches_lits. unfold progress_keywords. split.
  - intros [Hk | [Hk | [Hk | Hk]]]; eexists; (split; [|exact Hk]);
      cbn [In]; tauto.
  - intros (kw & Hin & Hk). cbn [In] in Hin.
    destruct Hin as [<- | [<- | [<- | [<- | []]]]]; tauto.
Qed.

Lemma done_glyph_alternatives_iff prev s prev' s' :
  matches (lits (u "✅") <|> lits (u "✓") <|> lits (u "☑️")) prev s prev' s' <->
  exists g, In g done_glyphs /\ ci_prefix g prev s = Some (prev', s').
Proof.
  rewrite !matches_alt, !matches_lits. unfold done_glyphs. split.
  - intros [Hk | [Hk | Hk]]; eexists; (split; [|exact Hk]); cbn [In]; tauto.
  - intros (kw & Hin & Hk). cbn [In] in Hin.
    destruct Hin as [<- | [<- | [<- | []]]]; tauto.
Qed.

Lemma progress_glyph_alternatives_iff prev s prev' s' :
  matches (lits (u "🔄") <|> lits (u "⏳")) prev s prev' s' <->
  exists g, In g progress_glyphs /\ ci_prefix g prev s = Some (prev', s').
Proof.
  rewrite !matches_alt, !matches_lits. unfold progress_glyphs. split.
  - intros [Hk | Hk]; eexists; (split; [|exact Hk]); cbn [In]; tauto.
  - intros (kw & Hin & Hk). cbn [In] in Hin.
    destruct Hin as [<- | [<- | []]]; tauto.
Qed.

(** ** Glyphs *)

Lemma ci_prefix_cons p kw prev s :
  ci_prefix (p :: kw) prev s
  = match s with
    | c :: s' => if lit_match p c then ci_prefix kw (Some c) s' else None
    | [] => None
    end.
Proof. reflexivity. Qed.

Lemma after_prefix_cons p g s :
  after_prefix (p :: g) s
  = match s with
    | c :: s' => if c =? p then after_prefix g s' else None
    | [] => None
    end.
Proof. reflexivity. Qed.

Lemma ci_prefix_symbols g :
  forallb is_symbol g = true ->
  forall prev s,
    match ci_prefix g prev s with
    | Some (prev', s') =>
        after_prefix g s = Some s'
        /\ (g <> [] -> word_here s = false /\ word_before prev' = false)
    | None => after_prefix g s = None
    end.
Proof.
  induction g as [|p g IH]; intros Hg prev s.
  - simpl. split; [reflexivity | congruence].
  - simpl in Hg. apply andb_true_iff in Hg as [Hp Hg].
    rewrite ci_prefix_cons, after_prefix_cons.
    destruct s as [|c s]; [reflexivity|].
    rewrite (lit_match_symbol p c Hp).
    destruct (Z.eqb_spec c p) as [-> | Hne]; [|reflexivity].
    destruct g as [|q g].
    + simpl. split; [reflexivity|]. intros _.
      split; now apply symbol_not_word.
    + specialize (IH Hg (Some p) s).
      destruct (ci_prefix (q :: g) (Some p) s) as [[prev' s']|]; [|exact IH].
      destruct IH as [Ha Hw]. split; [exact Ha|]. intros _.
      split; [now apply symbol_not_word | now apply Hw].
Qed.

(** For a glyph, a boundary on each side is a word character on each
    side. *)
Lemma glyph_word_ci_at g prev s :
  forallb is_symbol g = true -> g <> [] ->
  word_ci_at g prev s = flanked_at g prev s.
Proof.
  intros Hg Hne. unfold word_ci_at, flanked_at.
  pose proof (ci_prefix_symbols g Hg prev s) as Hc.
  destruct (ci_prefix g prev s) as [[prev' s']|].
  - destruct Hc as [Ha Hw]. destruct (Hw Hne) as [Hs Hp]. rewrite Ha.
    unfold at_boundary. rewrite Hs, Hp.
    now destruct (word_before prev), (word_here s').
  - rewrite Hc. now rewrite !andb_false_r.
Qed.

(** ** Keywords followed by white space *)

Lemma ci_prefix_last kw : forall prev s prev' s',
  ci_prefix kw prev s = Some (prev', s') -> kw <> [] ->
  exists c, prev' = Some c /\ lit_match (last kw 0) c = true.
Proof.
  induction kw as [|p kw IH]; intros prev s prev' s' Hk Hne; [congruence|].
  simpl in Hk. destruct s as [|c s]; [discriminate|].
  destruct (lit_match p c) eqn:Hp; [|discriminate].
  destruct kw as [|q kw].
  - simpl in Hk. injection Hk as <- <-. exists c. now split.
  - apply IH in Hk as (d & -> & Hd); [|discriminate]. now exists d.
Qed.

Lemma plain_letter_word p c :
  plain_letter p = true -> lit_match p c = true -> is_word c = true.
Proof.
  unfold plain_letter. intros Hp Hm.
  apply andb_true_iff in Hp as [Hp Hs]. apply andb_true_iff in Hp as [Hp Hk].
  apply andb_true_iff in Hp as [Hp Hi].
  apply (WordsFacts.cased_lower_word p); [exact Hp|].
  rewrite <- (@lit_match_letter p c Hp); [exact Hm | | |];
    intros ->; discriminate.
Qed.

(** A keyword that ends in a plain letter and is followed by white
    space ends on a word boundary. *)
Lemma keyword_then_space kw prev s prev' c s' :
  kw <> [] -> plain_letter (last kw 0) = true ->
  at_boundary prev s = true ->
  ci_prefix kw prev s = Some (prev', c :: s') -> isspace c = true ->
  word_ci_at kw prev s = true.
Proof.
  intros Hne Hl Hb Hk Hc. apply word_ci_at_iff.
  exists prev', (c :: s'). split; [exact Hb|]. split; [exact Hk|].
  apply ci_prefix_last in Hk as (d & -> & Hd); [|exact Hne].
  unfold at_boundary. simpl.
  now rewrite (@plain_letter_word _ d Hl Hd), (@space_not_word _ c Hc).
Qed.

(** [\b r \s+(.+)] matches only where [\b(alternatives)\b] does, when
    [r] matches some of the keywords of the alternatives, each ending in
    a plain letter. *)
Lemma phrase_pattern_subsumed r alts kws prev s :
  (forall prev s prev' s',
      matches r prev s prev' s' ->
      exists kw, In kw kws /\ kw <> [] /\ plain_letter (last kw 0) = true
                 /\ ci_prefix kw prev s = Some (prev', s')) ->
  (forall prev s prev' s',
      matches alts prev s prev' s' <->
      exists kw, In kw kws /\ ci_prefix kw prev s = Some (prev', s')) ->
  match_len (Bnd >> r >> Plus Space >> Grp (Plus AnyChar)) prev s <> None ->
  match_len (Bnd >> Grp alts >> Bnd) prev s <> None.
Proof.
  intros Hr Halts Hm. apply (@bounded_alternatives alts kws prev s Halts).
  apply match_len_iff in Hm as (prev' & s' & Hm).
  apply matches_seq in Hm as (prev0 & s0 & Hb & Hm).
  apply matches_bnd in Hb as (Hb & -> & ->).
  apply matches_seq in Hm as (prev1 & s1 & Hk & Hm).
  apply matches_seq in Hm as (prev2 & s2 & Hsp & _).
  apply matches_plus_head in Hsp as (c & s3 & -> & Hc).
  apply Hr in Hk as (kw & Hin & Hne & Hl & Hk).
  apply existsb_exists. exists kw. split; [exact Hin|].
  now apply keyword_then_space with prev1 c s3.
Qed.

(** ** [search] as a scan *)

Lemma search_from_somewhere r test :
  (forall prev s, match_len r prev s <> None <-> test prev s = true) ->
  forall s prev, search_from r prev s = somewhere test prev s.
Proof.
  intros Hiff. induction s as [|c s IH]; intros prev; simpl;
    pose proof (Hiff prev) as Hp.
  - specialize (Hp []). destruct (match_len r prev []), (test prev []);
      try reflexivity.
    + destruct Hp as [Hp _]. discriminate Hp. discriminate.
    + destruct Hp as [_ Hp]. now destruct Hp.
  - specialize (Hp (c :: s)). rewrite <- IH.
    destruct (match_len r prev (c :: s)), (test prev (c :: s));
      try reflexivity.
    + destruct Hp as [Hp _]. discriminate Hp. discriminate.
    + destruct Hp as [_ Hp]. now destruct Hp.
Qed.

Lemma search_from_subsumed r r' :
  (forall prev s, match_len r prev s <> None -> match_len r' prev s <> None) ->
  forall s prev, search_from r prev s = true -> search_from r' prev s = true.
Proof.
  intros Himp. induction s as [|c s IH]; intros prev; simpl;
    pose proof (Himp prev) as Hp.
  - specialize (Hp []). destruct (match_len r prev []); [|discriminate].
    intros _. destruct (match_len r' prev []); [reflexivity|].
    now destruct Hp.
  - specialize (Hp (c :: s)).
    destruct (match_len r prev (c :: s)).
    + intros _. destruct (match_len r' prev (c :: s)); [reflexivity|].
      now destruct Hp.
    + intros Hs. destruct (match_len r' prev (c :: s)); [reflexivity|].
      now apply IH.
Qed.

Lemma somewhere_ext test test' :
  (forall prev s, test prev s = test' prev s) ->
  forall s prev, somewhere test prev s = somewhere test' prev s.
Proof.
  intros Heq. induction s as [|c s IH]; intros prev; simpl.
  - now rewrite Heq.
  - now rewrite Heq, IH.
Qed.

End Patterns.

End ScanFacts.

(* ================================================================== *)
(** * More on [parse_message]                                          *)
(* ================================================================== *)

Module ClassifyMore.

Import ReSem ReFacts ReSound Scan Words ScanFacts PyFacts.
Local Open Scope re_scope.

Section Lists.
Context `{UnicodeDB}.

Lemma search_bounded alts kws text :
  (forall prev s prev' s',
      matches alts prev s prev' s' <->
      exists kw, In kw kws /\ ci_prefix kw prev s = Some (prev', s')) ->
  search (Bnd >> Grp alts >> Bnd) text = mentions kws text.
Proof.
  intros Halts. unfold search, mentions. apply search_from_somewhere.
  intros prev s. now apply bounded_alternatives.
Qed.

Lemma mentions_glyphs gs text :
  Forall (fun g => forallb is_symbol g = true /\ g <> []) gs ->
  mentions gs text = flanked gs text.
Proof.
  intros Hgs. unfold mentions, flanked. apply somewhere_ext. intros prev s.
  induction Hgs as [|g gs [Hg Hne] _ IH]; [reflexivity|].
  cbn [existsb]. now rewrite IH, (@glyph_word_ci_at _ g prev s Hg Hne).
Qed.

Lemma absorb (b1 b2 b3 b4 b5 : bool) :
  (b3 = true -> b1 = true) -> (b4 = true -> b1 = true) ->
  (b5 = true -> b1 = true) ->
  b1 || (b2 || (b3 || (b4 || (b5 || false)))) = b1 || b2.
Proof.
  destruct b1, b2, b3, b4, b5; simpl; intros H3 H4 H5; try reflexivity;
    (now rewrite H3) || (now rewrite H4) || (now rewrite H5).
Qed.

Lemma done_list_scan (text : str) :
  any_match done_patterns text = is_done text.
Proof.
  unfold any_match, done_patterns, is_done. cbn [existsb].
  rewrite absorb.
  - rewrite (@search_bounded _ done_keywords text done_alternatives_iff).
    rewrite (@search_bounded _ done_glyphs text done_glyph_alternatives_iff).
    rewrite (@mentions_glyphs done_glyphs text); [reflexivity|].
    repeat constructor; discriminate.
  - apply search_from_subsumed. intros prev s.
    apply phrase_pattern_subsumed with (kws := done_keywords);
      [|apply done_alternatives_iff].
    intros prev0 s0 prev' s' Hm. unfold completed_opt in Hm.
    apply matches_opt_kw in Hm as [Hm | Hm]; eexists;
      (split; [|split; [|split; [|exact Hm]]]);
      try discriminate; try reflexivity; cbn [In done_keywords]; tauto.
  - apply search_from_subsumed. intros prev s.
    apply phrase_pattern_subsumed with (kws := done_keywords);
      [|apply done_alternatives_iff].
    intros prev0 s0 prev' s' Hm. unfold finished_opt in Hm.
    apply matches_opt_kw in Hm as [Hm | Hm]; eexists;
      (split; [|split; [|split; [|exact Hm]]]);
      try discriminate; try reflexivity; cbn [In done_keywords]; tauto.
  - apply search_from_subsumed. intros prev s.
    apply phrase_pattern_subsumed with (kws := done_keywords);
      [|apply done_alternatives_iff].
    intros prev0 s0 prev' s' Hm. unfold done in Hm.
    apply matches_lits in Hm. eexists;
      (split; [|split; [|split; [|exact Hm]]]);
      try discriminate; try reflexivity; cbn [In done_keywords]; tauto.
Qed.

Lemma absorb4 (b1 b2 b3 b4 : bool) :
  (b3 = true -> b1 = true) -> (b4 = true -> b1 = true) ->
  b1 || (b2 || (b3 || (b4 || false))) = b1 || b2.
Proof.
  destruct b1, b2, b3, b4; simpl; intros H3 H4; try reflexivity;
    (now rewrite H3) || (now rewrite H4).
Qed.

Lemma progress_list_scan (text : str) :
  any_match progress_patterns text = is_progress text.
Proof.
  unfold any_match, progress_patterns, is_progress. cbn [existsb].
  rewrite absorb4.
  - rewrite (@search_bounded _ progress_keywords text
               progress_alternatives_iff).
    rewrite (@search_bounded _ progress_glyphs text
               progress_glyph_alternatives_iff).
    rewrite (@mentions_glyphs progress_glyphs text); [reflexivity|].
    repeat constructor; discriminate.
  - apply search_from_subsumed. intros prev s.
    apply phrase_pattern_subsumed with (kws := progress_keywords);
      [|apply progress_alternatives_iff].
    intros prev0 s0 prev' s' Hm. apply matches_lits in Hm. eexists;
      (split; [|split; [|split; [|exact Hm]]]);
      try discriminate; try reflexivity; cbn [In progress_keywords]; tauto.
  - apply search_from_subsumed. intros prev s.
    apply phrase_pattern_subsumed with (kws := progress_keywords);
      [|apply progress_alternatives_iff].
    intros prev0 s0 prev' s' Hm. apply matches_lits in Hm. eexists;
      (split; [|split; [|split; [|exact Hm]]]);
      try discriminate; try reflexivity; cbn [In progress_keywords]; tauto.
Qed.

(** X1. The done list matches a text exactly when the text holds one of
    complete, completed, finishe, finished, done between two word
    boundaries, in the casing of [re.IGNORECASE], or one of the three
    done glyphs between two word characters. The patterns of a keyword
    followed by a phrase match nothing that the first pattern does not:
    the list matches when its first or its second pattern does. *)
Theorem done_list_is_scan (text : str) :
  any_match done_patterns text = is_done text
  /\ any_match done_patterns text
     = any_match (firstn 2 done_patterns) text.
Proof.
  split; [apply done_list_scan|]. rewrite done_list_scan.
  unfold any_match, done_patterns, is_done. cbn [firstn existsb].
  rewrite orb_false_r.
  rewrite (@search_bounded _ done_keywords text done_alternatives_iff).
  rewrite (@search_bounded _ done_glyphs text done_glyph_alternatives_iff).
  rewrite (@mentions_glyphs done_glyphs text); [reflexivity|].
  repeat constructor; discriminate.
Qed.

(** X2. The in-progress list matches a text exactly when the text holds one
    of working on, started, begun, in progress between two word
    boundaries, in the casing of [re.IGNORECASE], or one of the two
    in-progress glyphs between two word characters; it matches when its
    first or its second pattern does. *)
Theorem progress_list_is_scan (text : str) :
  any_match progress_patterns text = is_progress text
  /\ any_match progress_patterns text
     = any_match (firstn 2 progress_patterns) text.
Proof.
  split; [apply progress_list_scan|]. rewrite progress_list_scan.
  unfold any_match, progress_patterns, is_progress. cbn [firstn existsb].
  rewrite orb_false_r.
  rewrite (@search_bounded _ progress_keywords text
             progress_alternatives_iff).
  rewrite (@search_bounded _ progress_glyphs text
             progress_glyph_alternatives_iff).
  rewrite (@mentions_glyphs progress_glyphs text); [reflexivity|].
  repeat constructor; discriminate.
Qed.

(** X3. The status of [parse_message] is [In Progress] exactly when the
    trimmed text holds an in-progress keyword or glyph as above and no
    done keyword or glyph; it is [Done] otherwise. *)
Theorem status_is_scan (text : str) :
  snd (parse_message text) = status_of (strip text)
  /\ (snd (parse_message text) = InProgress <->
      is_done (strip text) = false /\ is_progress (strip text) = true).
Proof.
  unfold parse_message, status_of.
  rewrite done_list_scan, progress_list_scan.
  destruct (is_done (strip text)); cbn [snd].
  - split; [reflexivity|]. split; [discriminate|]. intros [Hd _]. discriminate.
  - destruct (is_progress (strip text)); cbn [snd]; split; try reflexivity.
    + split; auto.
    + split; [discriminate|]. intros [_ Hp]. discriminate.
Qed.

End Lists.

(** ** Leaving characters out *)

Lemma subseq_refl (s : str) : subseq s s.
Proof. induction s; constructor; assumption. Qed.

Lemma subseq_trans (a b c : str) : subseq a b -> subseq b c -> subseq a c.
Proof.
  intros Hab Hbc. revert a Hab.
  induction Hbc as [|x b c _ IH|x b c _ IH]; intros a Hab.
  - exact Hab.
  - inversion Hab; subst.
    + apply subseq_keep. now apply IH.
    + apply subseq_drop. now apply IH.
  - apply subseq_drop. now apply IH.
Qed.

Lemma subseq_length (a b : str) : subseq a b -> (len a <= len b)%nat.
Proof. unfold len. induction 1; simpl; lia. Qed.

Lemma subseq_app_l (l s : str) : subseq s (l ++ s).
Proof. induction l; simpl; [apply subseq_refl | now apply subseq_drop]. Qed.

Lemma subseq_app_r (s r : str) : subseq s (s ++ r).
Proof.
  induction s as [|c s IH]; simpl.
  - induction r; constructor; assumption.
  - now apply subseq_keep.
Qed.

Lemma strip_subseq (s : str) : subseq (strip s) s.
Proof.
  destruct (strip_spec s) as (l & r & Hs & _). rewrite Hs at 2.
  apply subseq_trans with (strip s ++ r);
    [apply subseq_app_r | apply subseq_app_l].
Qed.

Section Description.
Context `{UnicodeDB}.

(** [re.sub] with the empty replacement only leaves characters out. *)
Lemma sub_go_subseq r s : forall prev skip, subseq (sub_go r prev s skip) s.
Proof.
  induction s as [|c s IH]; intros prev skip; simpl; [constructor|].
  destruct skip as [|n]; [|apply subseq_drop, IH].
  destruct (match_len r prev (c :: s)) as [[|n]|];
    try (apply subseq_keep, IH). apply subseq_drop, IH.
Qed.

(** X4. The description is the text with some characters left out, in every
    branch: nothing is added and nothing is reordered, and it is never
    longer than the text. *)
Theorem description_subseq (text : str) :
  subseq (fst (parse_message text)) text
  /\ (len (fst (parse_message text)) <= len text)%nat.
Proof.
  assert (Hs : subseq (fst (parse_message text)) text).
  { unfold parse_message.
    destruct (any_match done_patterns (strip text));
      [|destruct (any_match progress_patterns (strip text))]; simpl.
    - eapply subseq_trans; [apply strip_subseq|].
      eapply subseq_trans; [apply sub_go_subseq | apply strip_subseq].
    - eapply subseq_trans; [apply strip_subseq|].
      eapply subseq_trans; [apply sub_go_subseq | apply strip_subseq].
    - apply strip_subseq. }
  split; [exact Hs | now apply subseq_length].
Qed.

(** X5. The description never starts or ends with white space, in every
    branch. *)
Theorem description_trimmed (text : str) :
  trimmed (fst (parse_message text)) = true.
Proof.
  unfold parse_message.
  destruct (any_match done_patterns (strip text));
    [|destruct (any_match progress_patterns (strip text))]; simpl.
  - destruct (strip_spec (sub_empty done_strip (strip text)))
      as (_ & _ & _ & _ & _ & Ht). exact Ht.
  - destruct (strip_spec (sub_empty progress_strip (strip text)))
      as (_ & _ & _ & _ & _ & Ht). exact Ht.
  - destruct (strip_spec text) as (_ & _ & _ & _ & _ & Ht). exact Ht.
Qed.

End Description.

(** ** White space around the text *)

Lemma lstrip_app_space (l s : str) :
  forallb isspace l = true -> lstrip (l ++ s) = lstrip s.
Proof.
  induction l as [|c l IH]; simpl; [reflexivity|]. intros Hl.
  apply andb_true_iff in Hl as [Hc Hl]. rewrite Hc. now apply IH.
Qed.

Lemma lstrip_app (s r : str) :
  lstrip (s ++ r) = match lstrip s with [] => lstrip r | _ => lstrip s ++ r end.
Proof.
  induction s as [|c s IH]; simpl; [now destruct (lstrip r)|].
  destruct (isspace c); [exact IH | reflexivity].
Qed.

Lemma rstrip_app_space (s r : str) :
  forallb isspace r = true -> rstrip (s ++ r) = rstrip s.
Proof.
  intros Hr. unfold rstrip. rewrite rev_app_distr, lstrip_app_space;
    [reflexivity | now rewrite forallb_rev].
Qed.

Lemma strip_app_space (l s r : str) :
  forallb isspace l = true -> forallb isspace r = true ->
  strip (l ++ s ++ r) = strip s.
Proof.
  intros Hl Hr. unfold strip. rewrite (lstrip_app_space l (s ++ r) Hl).
  rewrite lstrip_app. destruct (lstrip s) as [|c t] eqn:Hs.
  - now rewrite (lstrip_all_space r Hr).
  - now apply rstrip_app_space.
Qed.

(** X6. White space before and after the text changes neither the
    description nor the status. *)
Theorem parse_message_ignores_outer_space `{UnicodeDB} (l text r : str)
  (Hl : forallb isspace l = true) (Hr : forallb isspace r = true) :
  parse_message (l ++ text ++ r) = parse_message text.
Proof. unfold parse_message. now rewrite (strip_app_space l text r Hl Hr). Qed.

(** ** What a match of the [re.sub] patterns removes *)

Section Removal.
Context `{UnicodeDB}.

Lemma ci_prefix_length kw : forall prev s prev' s',
  ci_prefix kw prev s = Some (prev', s') ->
  len s = (len kw + len s')%nat.
Proof.
  unfold len. induction kw as [|p kw IH]; intros prev s prev' s' Hk.
  - simpl in Hk. injection Hk as _ <-. reflexivity.
  - rewrite ci_prefix_cons in Hk. destruct s as [|c s]; [discriminate|].
    destruct (lit_match p c); [|discriminate].
    apply IH in Hk. simpl. lia.
Qed.

Lemma done_strip_alternatives_iff prev s prev' s' :
  matches (completed_opt <|> finished_opt <|> done
           <|> lits (u "✅") <|> lits (u "✓") <|> lits (u "☑️"))
          prev s prev' s' <->
  exists kw, In kw (done_keywords ++ done_glyphs)
             /\ ci_prefix kw prev s = Some (prev', s').
Proof.
  unfold completed_opt, finished_opt, done.
  rewrite !matches_alt, !matches_opt_kw, !matches_lits.
  unfold done_keywords, done_glyphs. cbn [app]. split.
  - intros [[Hk | Hk] | [[Hk | Hk] | [Hk | [Hk | [Hk | Hk]]]]]; eexists;
      (split; [|exact Hk]); cbn [In]; tauto.
  - intros (kw & Hin & Hk). cbn [In] in Hin.
    destruct Hin as [<- | [<- | [<- | [<- | [<- | [<- | [<- | [<- | []]]]]]]]];
      tauto.
Qed.

Lemma progress_strip_alternatives_iff prev s prev' s' :
  matches (lits (u "working on") <|> lits (u "started") <|> lits (u "begun")
           <|> lits (u "in progress") <|> lits (u "🔄") <|> lits (u "⏳"))
          prev s prev' s' <->
  exists kw, In kw (progress_keywords ++ progress_glyphs)
             /\ ci_prefix kw prev s = Some (prev', s').
Proof.
  rewrite !matches_alt, !matches_lits.
  unfold progress_keywords, progress_glyphs. cbn [app]. split.
  - intros [Hk | [Hk | [Hk | [Hk | [Hk | Hk]]]]]; eexists;
      (split; [|exact Hk]); cbn [In]; tauto.
  - intros (kw & Hin & Hk). cbn [In] in Hin.
    destruct Hin as [<- | [<- | [<- | [<- | [<- | [<- | []]]]]]]; tauto.
Qed.

(** Where a keyword or a glyph stands between two boundaries, the
    pattern of the [re.sub] matches one character or more. *)
Lemma strip_pattern_at alts kws prev s :
  (forall prev s prev' s',
      matches alts prev s prev' s' <->
      exists kw, In kw kws /\ ci_prefix kw prev s = Some (prev', s')) ->
  (forall kw, In kw kws -> kw <> []) ->
  existsb (fun kw => word_ci_at kw prev s) kws = true ->
  exists n, match_len (Bnd >> Grp alts >> Star Space) prev s = Some (S n).
Proof.
  intros Halts Hne Hw. apply existsb_exists in Hw as (kw & Hin & Hw).
  apply word_ci_at_iff in Hw as (prev' & s' & Hb & Hk & _).
  assert (Hm : match_len (Bnd >> Grp alts >> Star Space) prev s <> None).
  { apply match_len_iff. exists prev', s'. apply matches_seq.
    exists prev, s. split; [now apply matches_bnd|]. apply matches_seq.
    exists prev', s'. split; [|apply MStarNil].
    apply matches_grp, Halts. eauto. }
  destruct (match_len (Bnd >> Grp alts >> Star Space) prev s) as [k|] eqn:Hk';
    [|contradiction].
  apply match_len_sound in Hk' as (prev2 & s2 & Hm2 & ->).
  apply matches_seq in Hm2 as (prev0 & s0 & Hb0 & Hm2).
  apply matches_bnd in Hb0 as (_ & -> & ->).
  apply matches_seq in Hm2 as (prev1 & s1 & Hk1 & Hst).
  apply matches_grp, Halts in Hk1 as (kw1 & Hin1 & Hk1).
  apply ci_prefix_length in Hk1. apply matches_shorter in Hst.
  specialize (Hne kw1 Hin1). destruct kw1 as [|p kw1]; [congruence|].
  unfold len in *. simpl in Hk1.
  exists (List.length s - List.length s2 - 1)%nat. f_equal. lia.
Qed.

Lemma sub_go_shorter r test :
  (forall prev s, test prev s = true ->
                  exists n, match_len r prev s = Some (S n)) ->
  forall s prev, somewhere test prev s = true ->
                 (len (sub_go r prev s 0) < len s)%nat.
Proof.
  intros Htest. induction s as [|c s IH]; intros prev Hs; simpl in Hs.
  - rewrite orb_false_r in Hs. apply Htest in Hs as [n Hn].
    apply match_len_sound in Hn as (prev' & s' & _ & Hn).
    unfold len in Hn. simpl in Hn. discriminate.
  - cbn [sub_go].
    pose proof (subseq_length (sub_go_subseq r s (Some c) 0)) as Hle0.
    destruct (match_len r prev (c :: s)) as [[|n]|] eqn:Hm.
    + destruct (test prev (c :: s)) eqn:Ht.
      * apply Htest in Ht as [n Hn]. congruence.
      * specialize (IH (Some c) Hs). unfold len in *. simpl. lia.
    + pose proof (subseq_length (sub_go_subseq r s (Some c) n)) as Hle.
      unfold len in *. simpl. lia.
    + destruct (test prev (c :: s)) eqn:Ht.
      * apply Htest in Ht as [n Hn]. congruence.
      * specialize (IH (Some c) Hs). unfold len in *. simpl. lia.
Qed.

Lemma somewhere_or test1 test2 : forall s prev,
  somewhere test1 prev s || somewhere test2 prev s
  = somewhere (fun prev s => test1 prev s || test2 prev s) prev s.
Proof.
  induction s as [|c s IH]; intros prev; simpl.
  - now rewrite !orb_false_r.
  - rewrite <- IH.
    destruct (test1 prev (c :: s)), (test2 prev (c :: s)),
      (somewhere test1 (Some c) s); reflexivity.
Qed.

Lemma mentions_app kws gs text :
  mentions kws text || mentions gs text = mentions (kws ++ gs) text.
Proof.
  unfold mentions. rewrite somewhere_or. apply somewhere_ext.
  intros prev s. now rewrite existsb_app.
Qed.

Lemma strip_length (s : str) : (len (strip s) <= len s)%nat.
Proof. apply subseq_length, strip_subseq. Qed.

(** X7. When one of the two lists matches, the description is shorter than
    the trimmed text: the [re.sub] removes at least the indicator that
    was found. Otherwise the description is the trimmed text. So the
    description is the whole trimmed text in the fallback branch and
    only there. *)
Theorem description_shorter_unless_fallback (text : str) :
  if any_match done_patterns (strip text)
     || any_match progress_patterns (strip text)
  then (len (fst (parse_message text)) < len (strip text))%nat
  else fst (parse_message text) = strip text.
Proof.
  unfold parse_message.
  destruct (any_match done_patterns (strip text)) eqn:Hd; cbn [orb].
  - cbn [fst]. rewrite done_list_scan in Hd. unfold is_done in Hd.
    rewrite <- (@mentions_glyphs _ done_glyphs (strip text)) in Hd
      by (repeat constructor; discriminate).
    rewrite mentions_app in Hd.
    pose proof (strip_length (sub_empty done_strip (strip text))) as Hle.
    assert (Hlt : (len (sub_empty done_strip (strip text)) < len (strip text))%nat).
    { unfold sub_empty. revert Hd. apply sub_go_shorter. intros prev s.
      apply strip_pattern_at; [apply done_strip_alternatives_iff|].
      intros kw Hin. cbn in Hin.
      intuition (subst; discriminate). }
    lia.
  - destruct (any_match progress_patterns (strip text)) eqn:Hp;
      [|reflexivity].
    cbn [fst]. rewrite progress_list_scan in Hp. unfold is_progress in Hp.
    rewrite <- (@mentions_glyphs _ progress_glyphs (strip text)) in Hp
      by (repeat constructor; discriminate).
    rewrite mentions_app in Hp.
    pose proof (strip_length (sub_empty progress_strip (strip text))) as Hle.
    assert (Hlt : (len (sub_empty progress_strip (strip text))
                   < len (strip text))%nat).
    { unfold sub_empty. revert Hp. apply sub_go_shorter. intros prev s.
      apply strip_pattern_at; [apply progress_strip_alternatives_iff|].
      intros kw Hin. cbn in Hin.
      intuition (subst; discriminate). }
    lia.
Qed.

End Removal.

End ClassifyMore.

(* ================================================================== *)
(** * More on the sheet client and the handler                         *)
(* ================================================================== *)

Module BotMore.

Import GoogleSheetsManager Bot SheetFacts SetupHeaders PyFacts.

Section Service.
Variable St : Type.
Context `{SheetService St}.

(** A request adds itself to the requests and touches neither the log,
    nor the replies, nor the clock. *)
Lemma request_frame A (c : call) (serve : St -> result (A * St)) w r w' :
  request c serve w = (r, w') ->
  calls w' = calls w ++ [c] /\ logs w' = logs w
  /\ outbox w' = outbox w /\ clock w' = clock w.
Proof.
  intros Hr. apply request_inv in Hr
    as [(e & fs & _ & _ & ->) | [(a & s' & _ & _ & ->) | (e & _ & _ & ->)]];
    now repeat split.
Qed.

(** [add_task] returns, sends no reply, and asks the sheet for nothing
    but the read and the write of its own row. *)
Lemma add_task_returns self task status w :
  exists b w',
    add_task self task status w = (inl b, w')
    /\ outbox w' = outbox w
    /\ (sheet self = None -> b = false /\ w' = w)
    /\ exists new,
        calls w' = calls w ++ new
        /\ forall c, In c new ->
                     c = GetAllValues
                     \/ exists n, c = Update (row_range n)
                                            [task_row (clock w) task status].
Proof.
  destruct (sheet self) as [ws|] eqn:Hs.
  - rewrite (add_task_connected self task status w Hs).
    destruct (get_all_values ws w) as [[rows|e] w1] eqn:Hg;
      unfold get_all_values in Hg; apply request_frame in Hg
        as (Hc1 & Hl1 & Ho1 & Hk1).
    + destruct (update ws _ _ w1) as [[[]|e] w2] eqn:Hu;
        unfold update in Hu; apply request_frame in Hu
          as (Hc2 & Hl2 & Ho2 & Hk2);
        eexists; eexists; (split; [reflexivity|]); simpl;
        (split; [congruence|]); (split; [discriminate|]);
        eexists; (split; [rewrite Hc2, Hc1, <- app_assoc; reflexivity|]);
        intros c [<- | [<- | []]]; eauto.
    + eexists; eexists; (split; [reflexivity|]); simpl.
      split; [exact Ho1|]. split; [discriminate|].
      eexists. split; [exact Hc1|]. intros c [<- | []]. now left.
  - rewrite (add_task_disconnected self task status w Hs).
    exists false, w. repeat split; try reflexivity.
    exists []. split; [now rewrite app_nil_r | intros c []].
Qed.

(** X10. What one call of [add_task] asks of the sheet and what it logs. On
    a manager without a sheet: nothing, and the failure is not logged.
    On a connected manager: [get_all_values], then at most the one
    [update], and no [update] when the read raised; one log record,
    [INFO] with [True] and [ERROR] with [False]. [row_values] is never
    called and no reply is sent. *)
Theorem add_task_trace self task status w :
  exists b w',
    add_task self task status w = (inl b, w')
    /\ outbox w' = outbox w /\ clock w' = clock w
    /\ match sheet self with
       | None => b = false /\ w' = w
       | Some _ =>
           (exists rows : list (list str),
               calls w'
               = calls w ++ [GetAllValues;
                             Update (row_range (List.length rows + 1))
                                    [task_row (clock w) task status]]
               /\ ((b = true
                    /\ logs w'
                       = logs w ++ [(INFO, u "✅ Task added to Google Sheet: "
                                           ++ task)])
                   \/ (b = false
                       /\ exists e,
                           logs w'
                           = logs w
                             ++ [(ERROR,
                                  u "❌ Error adding task to Google Sheet: "
                                  ++ exn_msg e)])))
           \/ (b = false /\ calls w' = calls w ++ [GetAllValues]
               /\ exists e,
                   logs w'
                   = logs w
                     ++ [(ERROR, u "❌ Error adding task to Google Sheet: "
                                 ++ exn_msg e)])
       end.
Proof.
  destruct (sheet self) as [ws|] eqn:Hs.
  - rewrite (add_task_connected self task status w Hs).
    destruct (get_all_values ws w) as [[rows|e] w1] eqn:Hg.
    + unfold get_all_values in Hg. apply request_frame in Hg
        as (Hc1 & Hl1 & Ho1 & Hk1).
      destruct (update ws _ _ w1) as [[[]|e] w2] eqn:Hu;
        unfold update in Hu; apply request_frame in Hu
          as (Hc2 & Hl2 & Ho2 & Hk2);
        eexists; eexists; (split; [reflexivity|]); simpl;
        (split; [congruence|]); (split; [congruence|]); left; exists rows;
        (split; [rewrite Hc2, Hc1, <- app_assoc; reflexivity|]).
      * left. split; [reflexivity|]. now rewrite Hl2, Hl1.
      * right. split; [reflexivity|]. exists e. now rewrite Hl2, Hl1.
    + unfold get_all_values in Hg. apply request_frame in Hg
        as (Hc1 & Hl1 & Ho1 & Hk1).
      eexists; eexists; (split; [reflexivity|]); simpl.
      split; [exact Ho1|]. split; [exact Hk1|]. right.
      split; [reflexivity|]. split; [exact Hc1|]. exists e. now rewrite Hl1.
  - rewrite (add_task_disconnected self task status w Hs).
    exists false, w. now repeat split.
Qed.


(** ** [setup_sheet] and [setup_headers] *)

Lemma setup_headers_returns ws w :
  exists w', setup_headers ws w = (inl tt, w') /\ outbox w' = outbox w.
Proof.
  rewrite setup_headers_unfold.
  destruct (row_values ws 1 w) as [[headers|e] w1] eqn:Hr;
    unfold row_values in Hr; apply request_frame in Hr as (_ & _ & Ho1 & _).
  - destruct (short headers); [|eauto].
    destruct (update ws _ _ w1) as [[[]|e] w2] eqn:Hu;
      unfold update in Hu; apply request_frame in Hu as (_ & _ & Ho2 & _);
      eexists; (split; [reflexivity|]); simpl; congruence.
  - eexists. split; [reflexivity|]. exact Ho1.
Qed.

(** X11. [setup_sheet] never raises, and the manager it leaves has a sheet
    exactly when the connection was opened: a failure while the headers
    are set up is logged by [setup_headers] and does not disconnect the
    manager; a failure to open is logged and leaves [sheet] at [None]. *)
Theorem setup_sheet_connects (open_sheet : Py St Worksheet) w :
  match open_sheet w with
  | (inl ws, _) =>
      exists w', setup_sheet open_sheet w = (inl (mk (Some ws)), w')
  | (inr e, w1) =>
      setup_sheet open_sheet w
      = (inl (mk None),
         add_log ERROR
           (u "❌ Failed to connect to Google Sheets: " ++ exn_msg e) w1)
  end.
Proof.
  unfold setup_sheet, try_except, bind.
  destruct (open_sheet w) as [[ws|e] w1]; [|reflexivity].
  destruct (setup_headers_returns ws w1) as (w2 & Hw2 & _). rewrite Hw2.
  eexists. reflexivity.
Qed.

(** X12. [setup_headers] does not fail in silence: when it returns, either
    the first row reads back as a header of four columns or more and
    nothing or the [INFO] record was logged, or one [ERROR] record was
    logged. *)
Theorem setup_headers_header_or_error ws w r w'
  (Hback : @reads_back_header St _)
  (Hrun : setup_headers ws w = (r, w')) :
  (has_header (store w')
   /\ (logs w' = logs w
       \/ logs w' = logs w ++ [(INFO, u "📝 Headers set up in Google Sheet")]))
  \/ exists e,
      logs w'
      = logs w ++ [(ERROR, u "❌ Error setting up headers: " ++ exn_msg e)].
Proof.
  rewrite setup_headers_unfold in Hrun.
  destruct (row_values ws 1 w) as [[headers|e] w1] eqn:Hr.
  - pose proof Hr as Hf. unfold row_values in Hf.
    apply request_frame in Hf as (_ & Hl1 & _ & _).
    apply row_values_ok in Hr as (Hv & Hs1 & _ & _).
    destruct (short headers) eqn:Hshort.
    + apply short_iff in Hshort.
      destruct (update ws _ _ w1) as [[[]|e] w2] eqn:Hu;
        pose proof Hu as Hf; unfold update in Hf;
        apply request_frame in Hf as (_ & Hl2 & _ & _);
        injection Hrun as <- <-; simpl.
      * left. apply update_ok in Hu as (Hupd & _). rewrite Hs1 in Hupd.
        split; [|right; now rewrite Hl2, Hl1].
        exists header_row. split; [now apply (Hback _ _ _ Hv Hshort)|].
        simpl. lia.
      * right. exists e. now rewrite Hl2, Hl1.
    + injection Hrun as <- <-. left. split; [|now left].
      exists headers. rewrite Hs1. split; [exact Hv|].
      destruct (Nat.lt_ge_cases (List.length headers) 4) as [Hlt | Hge];
        [|exact Hge].
      apply short_iff in Hlt. congruence.
  - unfold row_values in Hr. apply request_frame in Hr as (_ & Hl1 & _ & _).
    injection Hrun as <- <-. right. exists e. simpl. now rewrite Hl1.
Qed.

End Service.

(** ** [handle_message] *)

Section Handler.
Variable St : Type.
Context `{SheetService St} `{UnicodeDB}.

Lemma handle_message_unfold sheets_manager text w :
  handle_message sheets_manager text w
  = let task := fst (parse_message text) in
    let status := snd (parse_message text) in
    if (len (strip task) <? 3)%nat then (inl tt, add_reply more_details w)
    else
      match add_task sheets_manager task status w with
      | (inl true, w1) => (inl tt, add_reply (task_recorded task status) w1)
      | (inl false, w1) => (inl tt, add_reply sorry w1)
      | (inr e, w1) =>
          (inl tt,
           add_reply went_wrong
             (add_log ERROR (u "Error handling message: " ++ exn_msg e) w1))
      end.
Proof.
  unfold handle_message, try_except.
  destruct (parse_message text) as [task status]. simpl.
  destruct (len (strip task) <? 3)%nat; [reflexivity|].
  unfold bind.
  destruct (add_task sheets_manager task status w) as [[[|]|e] w1];
    reflexivity.
Qed.

(** X14. Every row that [handle_message] sends to the sheet carries the
    description and the status of [parse_message] for the text, the
    description trimmed and three characters long or more, the status
    [Done] or [In Progress], and an empty note; it sends nothing else
    but the read before it. *)
Theorem rows_written_are_valid sheets_manager text w :
  exists new,
    calls (snd (handle_message sheets_manager text w)) = calls w ++ new
    /\ forall c, In c new ->
         c = GetAllValues
         \/ exists n date time task status,
             c = Update (row_range n) [[date; time; task; status; []]]
             /\ (task, status) = parse_message text
             /\ (3 <= len task)%nat /\ trimmed task = true
             /\ (status = Done \/ status = InProgress).
Proof.
  rewrite handle_message_unfold. cbv zeta.
  destruct (len (strip (fst (parse_message text))) <? 3)%nat eqn:Hlen.
  - exists []. split; [simpl; now rewrite app_nil_r | intros c []].
  - apply Nat.ltb_ge in Hlen.
    destruct (add_task_returns sheets_manager (fst (parse_message text))
                (snd (parse_message text)) w)
      as (b & w1 & Hadd & _ & _ & new & Hcalls & Hnew).
    rewrite Hadd. exists new. split; [now destruct b|].
    intros c Hc. apply Hnew in Hc as [-> | [n ->]]; [now left|]. right.
    exists n, (strftime_Ymd (clock w)), (strftime_HM (clock w)),
      (fst (parse_message text)), (snd (parse_message text)).
    split; [reflexivity|]. split; [now destruct (parse_message text)|].
    split.
    { pose proof (ClassifyMore.strip_length (fst (parse_message text))). lia. }
    split.
    { unfold parse_message.
      destruct (any_match done_patterns (strip text));
        [|destruct (any_match progress_patterns (strip text))]; simpl.
      - destruct (strip_spec (sub_empty done_strip (strip text)))
          as (_ & _ & _ & _ & _ & Ht). exact Ht.
      - destruct (strip_spec (sub_empty progress_strip (strip text)))
          as (_ & _ & _ & _ & _ & Ht). exact Ht.
      - destruct (strip_spec text) as (_ & _ & _ & _ & _ & Ht). exact Ht. }
    unfold parse_message.
    destruct (any_match done_patterns (strip text)); [now left|].
    destruct (any_match progress_patterns (strip text)); [now right | now left].
Qed.

End Handler.

End BotMore.

(* ================================================================== *)
(** * The bot on the sheet held in memory                              *)
(* ================================================================== *)

Module MemSheetMore.

Import GoogleSheetsManager Bot MemSheet SheetFacts Examples.

Lemma mem_add_task (w : World grid) (task status : str) :
  faults w = [] ->
  exists w',
    add_task connected task status w = (inl true, w')
    /\ store w' = reported_rows (store w) ++ [task_row (clock w) task status]
    /\ faults w' = [] /\ outbox w' = outbox w.
Proof.
  intros Hf. destruct w as [g fs clk cs ls ob]. simpl in Hf. subst fs.
  rewrite (@add_task_connected grid service connected sheet1 task status _
             eq_refl).
  unfold get_all_values, update, request.
  cbn [add_call set_faults set_store store faults clock calls logs outbox
       keep svc_get_all_values svc_update service tl add_log].
  unfold mem_update. rewrite range_row_row_range by lia.
  eexists. split; [reflexivity|].
  cbn [add_call set_faults set_store store faults clock calls logs outbox
       add_log].
  split; [|now split].
  rewrite get_row_past_end. cbn [List.length skipn]. rewrite app_nil_r.
  apply set_row_reported.
Qed.

Lemma mem_has_header_nonempty (g : grid) : @has_header grid service g -> g <> [].
Proof.
  intros (v & Hv & Hlen) ->. simpl in Hv. injection Hv as <-.
  simpl in Hlen. lia.
Qed.

(** X16. With no fault scheduled, [setup_headers] leaves a header in row 1 of
    the sheet in memory, whatever the sheet held, and [add_task] after it
    returns [True] and puts its row below the rows there are, none of
    which changes: the first task on an empty sheet lands in row 2. *)
Theorem mem_setup_then_add_task (g : grid) (clk : datetime)
        (task status : str) :
  exists w1 w2,
    setup_headers sheet1 (world g clk) = (inl tt, w1)
    /\ @has_header grid service (store w1)
    /\ add_task connected task status w1 = (inl true, w2)
    /\ store w2 = store w1 ++ [task_row clk task status]
    /\ (2 <= List.length (store w2))%nat.
Proof.
  destruct (setup_headers sheet1 (world g clk)) as [r w1] eqn:Hsetup.
  pose proof Hsetup as Hframe.
  apply SetupHeaders.setup_headers_once in Hsetup as (-> & Hf & Hs & _).
  specialize (Hf eq_refl).
  assert (Hh : @has_header grid service (store w1)).
  { destruct Hs as [[Hs Hno] | (v & Hv & Hlen & Hupd)].
    - rewrite Hs. exists (drop_trailing_empty (get_row 1 g)).
      split; [reflexivity|].
      destruct (Nat.lt_ge_cases
                  (List.length (drop_trailing_empty (get_row 1 g))) 4)
        as [Hlt | Hge]; [|exact Hge].
      exfalso. eapply (Hno eq_refl _ _ eq_refl Hlt). reflexivity.
    - exists header_row. split; [|simpl; lia].
      exact (mem_reads_back_header Hv Hlen Hupd). }
  assert (Hclk : clock w1 = clk).
  { rewrite SetupHeaders.setup_headers_unfold in Hframe.
    destruct (row_values sheet1 1 (world g clk)) as [[headers|e] w0] eqn:Hr;
      unfold row_values in Hr; apply BotMore.request_frame in Hr
        as (_ & _ & _ & Hk0).
    - destruct (short headers); [|now injection Hframe as <-].
      destruct (update sheet1 _ _ w0) as [[[]|e] w2] eqn:Hu;
        unfold update in Hu; apply BotMore.request_frame in Hu
          as (_ & _ & _ & Hk2); injection Hframe as <-;
        cbn [clock add_log world] in *; congruence.
    - injection Hframe as <-. exact Hk0. }
  destruct (mem_add_task w1 task status Hf) as (w2 & Hadd & Hstore & _).
  rewrite Hclk in Hstore.
  assert (Hrows : reported_rows (store w1) = store w1).
  { pose proof (mem_has_header_nonempty Hh) as Hne.
    destruct (store w1); [congruence | reflexivity]. }
  rewrite Hrows in Hstore.
  exists w1, w2. repeat split; try assumption.
  rewrite Hstore, length_app. simpl.
  apply mem_has_header_nonempty in Hh.
  destruct (store w1); [congruence | simpl; lia].
Qed.

End MemSheetMore.

(* ================================================================== *)
(** * The further properties at concrete inputs                        *)
(* ================================================================== *)

Module MoreExamples.

Import GoogleSheetsManager Bot MemSheet Words.

(** [DONE] as a whole word of [the report is DONE]. *)
Lemma done_keyword_classified_witness :
  @parse_message plain_unicode (u "the report is DONE")
  = (u "the report is", Done).
Proof.
  rewrite (@Classify.done_keyword_classified plain_unicode
             (u "the report is DONE") (u "done")).
  - vm_compute. reflexivity.
  - simpl. tauto.
  - vm_compute. reflexivity.
Defined.

(** [Started] as a whole word of [Started code review]. *)
Lemma progress_keyword_classified_witness :
  @parse_message plain_unicode (u "Started code review")
  = (u "code review", InProgress).
Proof.
  rewrite (@Classify.progress_keyword_classified plain_unicode
             (u "Started code review") (u "started")).
  - vm_compute. reflexivity.
  - simpl. tauto.
  - vm_compute. reflexivity.
  - vm_compute. reflexivity.
Defined.

(** Spaces before [done it] and a line feed after it. *)
Lemma parse_message_ignores_outer_space_witness :
  @parse_message plain_unicode (u "  " ++ u "done it" ++ [0x0A])
  = @parse_message plain_unicode (u "done it").
Proof.
  apply (@ClassifyMore.parse_message_ignores_outer_space plain_unicode
           (u "  ") (u "done it") [0x0A]).
  - vm_compute. reflexivity.
  - vm_compute. reflexivity.
Defined.

(** [setup_headers] on the empty sheet, and on it with a fault at the
    read. *)
Lemma setup_headers_header_or_error_witness :
  @has_header grid service
              (store (snd (setup_headers sheet1 (world [] now))))
  /\ logs (snd (setup_headers sheet1
                  (faulty_world [] [Some (Exception (u "APIError"))] now)))
     = [(ERROR, u "❌ Error setting up headers: APIError")].
Proof.
  split.
  - destruct (@BotMore.setup_headers_header_or_error grid service sheet1
                (world [] now) (inl tt)
                (snd (setup_headers sheet1 (world [] now))))
      as [[Hh _] | [e He]].
    + exact Examples.mem_reads_back_header.
    + vm_compute. reflexivity.
    + exact Hh.
    + vm_compute in He. discriminate He.
  - destruct (@BotMore.setup_headers_header_or_error grid service sheet1
                (faulty_world [] [Some (Exception (u "APIError"))] now)
                (inl tt)
                (snd (setup_headers sheet1
                        (faulty_world [] [Some (Exception (u "APIError"))]
                                      now))))
      as [[_ [Hl | Hl]] | [e He]].
    + exact Examples.mem_reads_back_header.
    + vm_compute. reflexivity.
    + vm_compute in Hl. discriminate Hl.
    + vm_compute in Hl. discriminate Hl.
    + vm_compute. reflexivity.
Defined.

End MoreExamples.

(* ================================================================== *)
(** * Replies that may fail                                            *)
(* ================================================================== *)

Module TransportFacts.

Import GoogleSheetsManager Bot SheetFacts.

Section Handler.
Variable St : Type.
Context `{SheetService St} `{UnicodeDB}.

(** The two ends of the body of [handle_message]: a reply, then the
    [except] branch when it raised. *)
Lemma reply_then_except reply (w1 : World St) :
  match Transport.reply_text reply w1 with
  | (inl a, w') => (inl a, w')
  | (inr e, w') =>
      bind (logger_error (u "Error handling message: " ++ exn_msg e))
           (fun _ => Transport.reply_text went_wrong) w'
  end
  = Transport.deliver reply w1.
Proof.
  unfold Transport.reply_text, Transport.deliver, bind, logger_error.
  destruct (faults w1) as [|[e|] fs]; try reflexivity.
  cbn [faults set_faults add_log]. destruct fs as [|[e2|] fs2]; reflexivity.
Qed.

Lemma deliver_frame reply (w1 : World St) :
  store (snd (Transport.deliver reply w1)) = store w1
  /\ calls (snd (Transport.deliver reply w1)) = calls w1.
Proof.
  unfold Transport.deliver.
  destruct (faults w1) as [|[e|] fs]; try (now split).
  destruct fs as [|[e2|] fs2]; now split.
Qed.

Lemma request_no_faults A (c : call) (serve : St -> result (A * St)) w r w' :
  faults w = [] -> request c serve w = (r, w') -> faults w' = [].
Proof.
  intros Hf Hr. apply request_inv in Hr
    as [(e & fs & Hf' & _) | [(a & s' & _ & _ & ->) | (e & _ & _ & ->)]].
  - rewrite Hf in Hf'. discriminate.
  - simpl. now rewrite Hf.
  - simpl. now rewrite Hf.
Qed.

Lemma add_task_no_faults self task status w r w' :
  faults w = [] -> add_task self task status w = (r, w') -> faults w' = [].
Proof.
  intros Hf. destruct (sheet self) as [ws|] eqn:Hs.
  - rewrite (add_task_connected self task status w Hs).
    destruct (get_all_values ws w) as [[rows|e] w1] eqn:Hg;
      unfold get_all_values in Hg;
      (apply request_no_faults in Hg; [|exact Hf]).
    + destruct (update ws _ _ w1) as [[[]|e] w2] eqn:Hu;
        unfold update in Hu;
        (apply request_no_faults in Hu; [|exact Hg]);
        intros Heq; injection Heq as <- <-; exact Hu.
    + intros Heq. injection Heq as <- <-. exact Hg.
  - rewrite (add_task_disconnected self task status w Hs).
    intros Heq. injection Heq as <- <-. exact Hf.
Qed.

Lemma reply_text_delivered msg (w : World St) :
  faults w = [] -> Transport.reply_text msg w = reply_text msg w.
Proof.
  intros Hf. unfold Transport.reply_text, reply_text. rewrite Hf.
  destruct w as [s fs clk cs ls ob]. simpl in Hf. now subst fs.
Qed.

(** With no fault scheduled every reply is delivered, and
    [handle_message] is [Bot.handle_message]. *)
Lemma handle_message_delivered sheets_manager text w :
  faults w = [] ->
  Transport.handle_message sheets_manager text w
  = Bot.handle_message sheets_manager text w.
Proof.
  intros Hf. unfold Transport.handle_message, Bot.handle_message, try_except.
  destruct (parse_message text) as [task status].
  destruct (len (strip task) <? 3)%nat.
  - now rewrite (@reply_text_delivered _ w Hf).
  - unfold bind at 1 3.
    destruct (add_task sheets_manager task status w) as [[b|e] w1] eqn:Hadd;
      (apply add_task_no_faults in Hadd; [|exact Hf]).
    + destruct b; now rewrite (@reply_text_delivered _ w1 Hadd).
    + unfold bind, logger_error. apply reply_text_delivered. exact Hadd.
Qed.

(** X13. [handle_message] with replies that may raise. It runs
    [add_task] unless the description is shorter than three characters,
    and [add_task] returns; then it sends the one reply that goes with
    the result: the request for details, the confirmation or the apology.
    When that reply is delivered it is the only one and [handle_message]
    returns. When it raises, the error is logged and [went_wrong] is sent
    in its place, also after [add_task] wrote the row; when that raises
    as well, the exception leaves [handle_message]. The replies leave the
    sheet and the requests as [add_task] left them. *)
Theorem handle_message_outcome sheets_manager text w :
  exists b w1,
    (if (len (strip (fst (parse_message text))) <? 3)%nat
     then b = false /\ w1 = w
     else add_task sheets_manager (fst (parse_message text))
                   (snd (parse_message text)) w = (inl b, w1))
    /\ Transport.handle_message sheets_manager text w
       = Transport.deliver (Transport.first_reply text b) w1
    /\ store (snd (Transport.handle_message sheets_manager text w)) = store w1
    /\ calls (snd (Transport.handle_message sheets_manager text w)) = calls w1.
Proof.
  assert (Hrun : exists b w1,
             (if (len (strip (fst (parse_message text))) <? 3)%nat
              then b = false /\ w1 = w
              else add_task sheets_manager (fst (parse_message text))
                            (snd (parse_message text)) w = (inl b, w1))
             /\ Transport.handle_message sheets_manager text w
                = Transport.deliver (Transport.first_reply text b) w1).
  { unfold Transport.handle_message, Transport.first_reply, try_except.
    destruct (parse_message text) as [task status]. cbn [fst snd].
    destruct (len (strip task) <? 3)%nat.
    - exists false, w. split; [now split|]. apply reply_then_except.
    - destruct (BotMore.add_task_returns sheets_manager task status w)
        as (b & w1 & Hadd & _). exists b, w1. split; [exact Hadd|].
      unfold bind at 1. rewrite Hadd.
      destruct b; apply reply_then_except. }
  destruct Hrun as (b & w1 & Hfirst & Hrun). exists b, w1.
  split; [exact Hfirst|]. split; [exact Hrun|]. rewrite Hrun.
  apply deliver_frame.
Qed.

(** X15. On a manager without a sheet [handle_message] asks nothing of
    the sheet: it goes straight to the reply, the request for details or
    the apology, and ends as any reply does. *)
Theorem handle_message_disconnected sheets_manager text w
  (Hnone : sheet sheets_manager = None) :
  Transport.handle_message sheets_manager text w
  = Transport.deliver
      (if (len (strip (fst (parse_message text))) <? 3)%nat
       then more_details else sorry) w
  /\ store (snd (Transport.handle_message sheets_manager text w)) = store w
  /\ calls (snd (Transport.handle_message sheets_manager text w)) = calls w.
Proof.
  assert (Hrun : Transport.handle_message sheets_manager text w
                 = Transport.deliver
                     (if (len (strip (fst (parse_message text))) <? 3)%nat
                      then more_details else sorry) w).
  { unfold Transport.handle_message, try_except.
    destruct (parse_message text) as [task status]. cbn [fst snd].
    destruct (len (strip task) <? 3)%nat; [apply reply_then_except|].
    unfold bind at 1.
    rewrite (add_task_disconnected sheets_manager task status w Hnone).
    apply reply_then_except. }
  split; [exact Hrun|]. rewrite Hrun. apply deliver_frame.
Qed.

End Handler.

End TransportFacts.

(* ================================================================== *)
(** * Replies that may fail, on the sheet held in memory               *)
(* ================================================================== *)

Module MemTransport.

Import GoogleSheetsManager Bot MemSheet SheetFacts Examples TransportFacts.

(** [add_task] on the sheet in memory when its two requests go
    through and the faults [fs] are scheduled after them. *)
Lemma mem_add_task_then (g : grid) (fs : list (option exn)) (clk : datetime)
      (task status : str) :
  exists w',
    add_task connected task status (faulty_world g (None :: None :: fs) clk)
    = (inl true, w')
    /\ store w' = reported_rows g ++ [task_row clk task status]
    /\ faults w' = fs /\ outbox w' = []
    /\ logs w' = [(INFO, u "✅ Task added to Google Sheet: " ++ task)].
Proof.
  rewrite (@add_task_connected grid service connected sheet1 task status _
             eq_refl).
  unfold get_all_values, update, request.
  cbn [faulty_world add_call set_faults set_store store faults clock calls
       logs outbox keep svc_get_all_values svc_update service tl add_log].
  unfold mem_update. rewrite range_row_row_range by lia.
  eexists. split; [reflexivity|].
  cbn [add_call set_faults set_store store faults clock calls logs outbox
       add_log app].
  split; [|now repeat split].
  rewrite get_row_past_end. cbn [List.length skipn]. rewrite app_nil_r.
  apply set_row_reported.
Qed.

Section Handler.
Context `{UnicodeDB}.

Lemma mem_handle_message_long (g : grid) (fs : list (option exn))
      (clk : datetime) (text : str) :
  (3 <= len (strip (fst (parse_message text))))%nat ->
  exists w1,
    Transport.handle_message connected text
                             (faulty_world g (None :: None :: fs) clk)
    = Transport.deliver
        (task_recorded (fst (parse_message text)) (snd (parse_message text)))
        w1
    /\ store w1
       = reported_rows g
         ++ [task_row clk (fst (parse_message text)) (snd (parse_message text))]
    /\ faults w1 = fs /\ outbox w1 = []
    /\ logs w1
       = [(INFO, u "✅ Task added to Google Sheet: "
                 ++ fst (parse_message text))].
Proof.
  intros Hlong. apply Nat.ltb_ge in Hlong.
  unfold Transport.handle_message, try_except.
  destruct (parse_message text) as [task status]. cbn [fst snd] in *.
  rewrite Hlong.
  destruct (mem_add_task_then g fs clk task status)
    as (w1 & Hadd & Hstore & Hf & Hout & Hlog).
  exists w1. split; [|now repeat split].
  unfold bind at 1. rewrite Hadd. apply reply_then_except.
Qed.

(** X17. With a connected manager, a message whose description has
    three characters or more, and a transport on which the two requests
    and the reply go through: the sheet in memory gains exactly the row
    [date, time, description, status, ''] below the rows that
    [get_all_values] reports, and the one reply is the confirmation that
    names the description and the status of that row. *)
Theorem mem_handle_message_records (g : grid) (clk : datetime) (text : str)
  (Hlong : (3 <= len (strip (fst (parse_message text))))%nat) :
  exists w',
    Transport.handle_message connected text
                             (faulty_world g [None; None; None] clk)
    = (inl tt, w')
    /\ store w'
       = reported_rows g
         ++ [[strftime_Ymd clk; strftime_HM clk;
              fst (parse_message text); snd (parse_message text); []]]
    /\ outbox w'
       = [task_recorded (fst (parse_message text)) (snd (parse_message text))].
Proof.
  destruct (mem_handle_message_long g [None] clk text Hlong)
    as (w1 & Hrun & Hstore & Hf & Hout & _).
  rewrite Hrun. unfold Transport.deliver. rewrite Hf.
  eexists. split; [reflexivity|].
  cbn [store outbox add_reply set_faults]. rewrite Hstore, Hout. now split.
Qed.

(** X19. The same when the confirmation raises [e] and the reply after
    it goes through: the row is in the sheet all the same, the error is
    logged after the record of the task, and the one reply that reaches
    the user is [went_wrong]. *)
Theorem mem_row_written_reply_failed (g : grid) (clk : datetime) (text : str)
        (e : exn)
  (Hlong : (3 <= len (strip (fst (parse_message text))))%nat) :
  exists w',
    Transport.handle_message connected text
                             (faulty_world g [None; None; Some e; None] clk)
    = (inl tt, w')
    /\ store w'
       = reported_rows g
         ++ [[strftime_Ymd clk; strftime_HM clk;
              fst (parse_message text); snd (parse_message text); []]]
    /\ outbox w' = [went_wrong]
    /\ logs w'
       = [(INFO, u "✅ Task added to Google Sheet: "
                 ++ fst (parse_message text));
          (ERROR, u "Error handling message: " ++ exn_msg e)].
Proof.
  destruct (mem_handle_message_long g [Some e; None] clk text Hlong)
    as (w1 & Hrun & Hstore & Hf & Hout & Hlog).
  rewrite Hrun. unfold Transport.deliver. rewrite Hf.
  eexists. split; [reflexivity|].
  cbn [store outbox logs add_reply add_log set_faults].
  rewrite Hstore, Hout, Hlog. now repeat split.
Qed.

End Handler.

(** X15 at a message to a manager without a sheet, the reply going
    through. *)
Lemma handle_message_disconnected_witness :
  @Transport.handle_message grid service plain_unicode (mk None)
                            (u "Completed the sales report")
                            (world two_rows now)
  = (inl tt, add_reply sorry (world two_rows now)).
Proof.
  rewrite (proj1 (@TransportFacts.handle_message_disconnected grid service
                    plain_unicode (mk None) (u "Completed the sales report")
                    (world two_rows now) eq_refl)).
  vm_compute. reflexivity.
Defined.

(** X17 at [Completed the sales report]. *)
Lemma mem_handle_message_records_witness :
  exists w',
    @Transport.handle_message grid service plain_unicode connected
                              (u "Completed the sales report")
                              (faulty_world two_rows [None; None; None] now)
    = (inl tt, w')
    /\ store w'
       = two_rows ++ [[u "2026-11-04"; u "09:05"; u "the sales report";
                       Done; []]].
Proof.
  destruct (@mem_handle_message_records plain_unicode two_rows now
              (u "Completed the sales report")) as (w' & Hrun & Hstore & _).
  - vm_compute. lia.
  - exists w'. split; [exact Hrun|]. rewrite Hstore. vm_compute. reflexivity.
Defined.

(** X19 at the same message, the confirmation refused. *)
Lemma mem_row_written_reply_failed_witness :
  exists w',
    @Transport.handle_message grid service plain_unicode connected
       (u "Completed the sales report")
       (faulty_world two_rows
          [None; None; Some (Exception (u "BadRequest")); None] now)
    = (inl tt, w')
    /\ store w'
       = two_rows ++ [[u "2026-11-04"; u "09:05"; u "the sales report";
                       Done; []]]
    /\ outbox w' = [went_wrong].
Proof.
  destruct (@mem_row_written_reply_failed plain_unicode two_rows now
              (u "Completed the sales report") (Exception (u "BadRequest")))
    as (w' & Hrun & Hstore & Hout & _).
  - vm_compute. lia.
  - exists w'. split; [exact Hrun|]. split; [|exact Hout].
    rewrite Hstore. vm_compute. reflexivity.
Defined.

End MemTransport.
